(** * go-safe: Subject / Locker / Queue / Buffer

    A shallow embedding of the synchronisation core of
    [github.com/PlayerR9/go-safe] (packages [subject], [queue] and
    [buffer/internal]) together with the properties its design document
    states about it, and of what is built around that core: the running
    relay of a started Buffer, the actions of package [common], the Buffer
    behind a context of package [buffer], and the map and the table of
    package [rws].

    Conventions of the embedding.
    - A Go pointer [*X] that the code compares with [nil] is [ptr X], that is
      [option X]: [None] is [nil], [Some x] is a live object whose current
      contents are [x].  Methods take the receiver and give back its new
      contents.
    - A Go [error] value is [option error]; [None] is the [nil] error.
    - Go's [int] is a 64-bit two's complement integer, kept in [Z] and
      normalised with [int_wrap] after every arithmetic operation.
    - Callbacks (observers, the argument of [Locker.DoFunc]) act on a "world"
      [W], the part of the program state they can reach; they are ordinary
      functions [W -> W * option error].
    - [Subject.NotifyAll] starts one goroutine per observer.  The order in
      which the goroutines take effect is chosen by a [Scheduler]; every
      statement below is for an arbitrary scheduler.
    - An operation that may not return has an [outcome]: it [Returns] a
      value, [Blocks], or [Panics].
    - A Go slice is the list of its elements; where the code writes through
      a slice, the array behind it is given beside the slice.  An index out
      of range panics.
    - The locks of the code ([sync.Mutex], [sync.RWMutex]) make each method
      one step; a method is a function on the contents it guards. *)

From Stdlib Require Import ZArith Lia String.
From stdpp Require Import base option list gmap.

Set Default Proof Using "Type".
Set Warnings "-register-all".
Local Open Scope Z_scope.

(** ** Common definitions *)

Abbreviation ptr A := (option A) (only parsing).

(** The error values of the repository.  [ErrNilReceiver] is declared in
    package [common]; [joinError] is what [errors.Join] builds;
    [ErrClient] stands for any error made by client code. *)
Inductive error : Type :=
| ErrNilReceiver
| ErrEmptyQueue
| ErrKeyNotExist
| ErrStop
| ErrAlreadyClosed
| ErrClient (msg : string)
| joinError (errs : list error).

(** [errors.Join]: drops the nil errors; nil when nothing is left. *)
Definition errors_Join (errs : list (option error)) : option error :=
  match omap id errs with
  | [] => None
  | es => Some (joinError es)
  end.

(** [*new(T)], the zero value of a type. *)
Class Zero (T : Type) := zero : T.
Global Instance Zero_int : Zero Z := 0.
Global Instance Zero_bool : Zero bool := false.

(** 64-bit [int] arithmetic. *)
Definition int_wrap (z : Z) : Z := (z + 2 ^ 63) mod 2 ^ 64 - 2 ^ 63.

(** How a call ends. *)
Inductive outcome (A : Type) : Type :=
| Returns (a : A)
| Blocks
| Panics.
Arguments Returns {A} a.
Arguments Blocks {A}.
Arguments Panics {A}.

(** The order in which [n] goroutines started together take effect: a
    permutation of their indices [0 .. n-1]. *)
Record Scheduler : Type := {
  order : nat -> list nat;
  order_perm : forall n, order n ≡ₚ seq 0 n
}.

(** Goroutines take effect in the order they were started. *)
Definition in_order : Scheduler :=
  {| order := seq 0; order_perm := fun n => reflexivity (seq 0 n) |}.

(** Goroutines take effect in the reverse order. *)
Definition in_reverse : Scheduler :=
  {| order := fun n => reverse (seq 0 n);
     order_perm := fun n => reverse_Permutation (seq 0 n) |}.

(** ** Package subject: observers *)

Module Observer.
(** [type Observer[T any] interface { Notify(change T) error; Cleanup() }] *)
Record t (T W : Type) : Type := {
  Notify : T -> W -> W * option error;
  Cleanup : W -> W
}.
Arguments Notify {T W} _ _ _.
Arguments Cleanup {T W} _ _.
End Observer.

(** [type Action[T any] func(change T) error] *)
Definition Action (T W : Type) : Type := T -> W -> W * option error.

(** [reactiveObserver] wraps an action.  Its [Cleanup] only forgets the
    action inside the observer, which no world can see. *)
Definition reactiveObserver {T W} (action : Action T W) : Observer.t T W :=
  {| Observer.Notify := action; Observer.Cleanup := fun w => w |}.

(** [FromAction]: nil for a nil action. *)
Definition FromAction {T W} (action : option (Action T W))
  : option (Observer.t T W) :=
  match action with
  | None => None
  | Some a => Some (reactiveObserver a)
  end.

(** ** Package subject: Subject *)

Module Subject.
Section defs.
Context {T W : Type} `{!Zero T} (sch : Scheduler).

Record t : Type := {
  state : T;
  observers : list (Observer.t T W)
}.

(** The goroutines of [NotifyAll], in the order [sched] they take effect:
    goroutine [i] calls [observers[i].Notify(state)] and appends a non-nil
    error to [errs]. *)
Fixpoint run_goroutines (sched : list nat) (obs : list (Observer.t T W))
    (st : T) (w : W) (errs : list (option error))
  : W * list (option error) :=
  match sched with
  | [] => (w, errs)
  | i :: rest =>
      match obs !! i with
      | None => run_goroutines rest obs st w errs
      | Some o =>
          let '(w', err) := Observer.Notify o st w in
          match err with
          | None => run_goroutines rest obs st w' errs
          | Some _ => run_goroutines rest obs st w' (errs ++ [err])
          end
      end
  end.

Definition NotifyAll (s : ptr t) (w : W) : W * option error :=
  match s with
  | None => (w, Some ErrNilReceiver)
  | Some s =>
      let st := state s in
      let obs := observers s in
      let '(w', errs) :=
        run_goroutines (order sch (length obs)) obs st w [] in
      (w', errors_Join errs)
  end.

(** The calls made by the goroutines of [NotifyAll]: which observer, and
    what its [Notify] returned.  Ghost counterpart of [run_goroutines]. *)
Fixpoint notify_log (sched : list nat) (obs : list (Observer.t T W))
    (st : T) (w : W) : list (nat * option error) :=
  match sched with
  | [] => []
  | i :: rest =>
      match obs !! i with
      | None => notify_log rest obs st w
      | Some o =>
          let '(w', err) := Observer.Notify o st w in
          (i, err) :: notify_log rest obs st w'
      end
  end.

Definition Notify (s : ptr t) (change : T) (w : W)
  : ptr t * W * option error :=
  match s with
  | None => (None, w, Some ErrNilReceiver)
  | Some s0 =>
      let s1 := {| state := change; observers := observers s0 |} in
      let '(w', err) := NotifyAll (Some s1) w in
      (Some s1, w', err)
  end.

Definition Cleanup (s : ptr t) (w : W) : ptr t * W :=
  match s with
  | None => (None, w)
  | Some s0 =>
      match observers s0 with
      | [] => (Some {| state := zero; observers := [] |}, w)
      | obs =>
          (Some {| state := zero; observers := [] |},
           foldl (fun w o => Observer.Cleanup o w) w obs)
      end
  end.

Definition New (value : T) : ptr t :=
  Some {| state := value; observers := [] |}.

(** [new(Subject[T])]: the zero Subject. *)
Definition new : t := {| state := zero; observers := [] |}.

Definition Set_ (s : ptr t) (value : T) (w : W)
  : ptr t * W * option error :=
  match s with
  | None => (None, w, Some ErrNilReceiver)
  | Some s0 =>
      let s1 := {| state := value; observers := observers s0 |} in
      let '(w', err) := NotifyAll (Some s1) w in
      (Some s1, w', err)
  end.

Definition Get (s : ptr t) : T * option error :=
  match s with
  | None => (zero, Some ErrNilReceiver)
  | Some s0 => (state s0, None)
  end.

Definition MustGet (s : ptr t) : T :=
  match s with
  | None => zero
  | Some s0 => state s0
  end.

(** [fn func(elem *T)] is the function from the old to the new state. *)
Definition Edit (s : ptr t) (fn : option (T -> T)) (w : W)
  : ptr t * W * option error :=
  match fn with
  | None => (s, w, None)
  | Some fn =>
      match s with
      | None => (None, w, Some ErrNilReceiver)
      | Some s0 =>
          let s1 := {| state := fn (state s0); observers := observers s0 |} in
          let '(w', err) := NotifyAll (Some s1) w in
          (Some s1, w', err)
      end
  end.

Definition Attach (s : ptr t) (o : option (Observer.t T W))
  : ptr t * option error :=
  match o with
  | None => (s, None)
  | Some o =>
      match s with
      | None => (None, Some ErrNilReceiver)
      | Some s0 =>
          (Some {| state := state s0; observers := observers s0 ++ [o] |},
           None)
      end
  end.

Definition Copy (s : ptr t) : ptr t :=
  match s with
  | None => Some {| state := zero; observers := [] |}
  | Some s0 => Some {| state := state s0; observers := [] |}
  end.

(** A Subject used as an Observer (it implements the interface) lives in
    the world of the Subject it observes. *)
Definition as_observer : Observer.t T (ptr t * W) :=
  {| Observer.Notify := fun change '(s, w) =>
       let '(s', w', err) := Notify s change w in ((s', w'), err);
     Observer.Cleanup := fun '(s, w) => Cleanup s w |}.
End defs.
Arguments t : clear implicits.
End Subject.

(** ** Package subject: Locker *)

Module Locker.
(** What reaches the condition variable: [cond.Broadcast()] or
    [cond.Signal()]. *)
Inductive pulse : Type := Broadcast | Signal.

(** [sync.Cond], as far as the observers of the conditions act on it: the
    pulses sent so far, oldest first. *)
Record Cond : Type := { pulses : list pulse }.

Section defs.
Context (sch : Scheduler).

(** Keys are of a type [T Conditioner], an [~int]. *)
Record t : Type := {
  cond : Cond;
  subjects : gmap Z (ptr (Subject.t bool Cond))
}.

(** [NewLocker] never returns nil: this is the Locker it points to. *)
Definition NewLocker : t :=
  {| cond := {| pulses := [] |}; subjects := ∅ |}.

(** The receiver is dereferenced without a nil check, so it is a live
    Locker here. *)
Definition SetSubject (l : t) (key : Z) (value : bool) (broadcast : bool)
  : t :=
  let subject := Subject.New value in
  let fn : Action bool Cond :=
    if broadcast
    then fun _ c => ({| pulses := pulses c ++ [Broadcast] |}, None)
    else fun _ c => ({| pulses := pulses c ++ [Signal] |}, None) in
  let o := FromAction (Some fn) in
  let '(subject, _) := Subject.Attach subject o in
  {| cond := cond l; subjects := <[key := subject]> (subjects l) |}.

Definition ChangeValue (l : ptr t) (key : Z) (value : bool)
  : ptr t * option error :=
  match l with
  | None => (None, Some ErrNilReceiver)
  | Some l0 =>
      match subjects l0 !! key with
      | None => (Some l0, Some ErrKeyNotExist)
      | Some subject =>
          let '(subject', c', _) := Subject.Set_ sch subject value (cond l0) in
          (Some {| cond := c'; subjects := <[key := subject']> (subjects l0) |},
           None)
      end
  end.

(** The copy of the conditions, and whether at least one of them is
    false. *)
Definition hasFalse (l : t) : gmap Z bool * bool :=
  let map_copy := Subject.MustGet <$> subjects l in
  (map_copy, existsb (fun kv => negb kv.2) (map_to_list map_copy)).

Definition Get (l : ptr t) (key : Z) : bool * option error :=
  match l with
  | None => (false, Some ErrNilReceiver)
  | Some l0 =>
      match subjects l0 !! key with
      | Some val => (Subject.MustGet val, None)
      | None => (false, Some ErrKeyNotExist)
      end
  end.

(** The loop of [DoFunc].  [cur] is the Locker as the loop sees it now;
    [wakes] are its contents at each later return from [cond.Wait()], in
    order.  The loop [Blocks] when it is still waiting after the last of
    them. *)
Fixpoint wait_loop (wakes : list t) (cur : t) : outcome (gmap Z bool) :=
  let '(map_copy, ok) := hasFalse cur in
  if ok then Returns map_copy
  else
    match wakes with
    | [] => Blocks
    | woken :: rest => wait_loop rest woken
    end.

Definition DoFunc {W : Type} (l : ptr t) (wakes : list t)
    (f : gmap Z bool -> W -> W * option error) (w : W)
  : outcome (W * option error) :=
  match l with
  | None => Returns (w, Some ErrNilReceiver)
  | Some cur =>
      match wait_loop wakes cur with
      | Returns map_copy => Returns (f map_copy w)
      | Blocks => Blocks
      | Panics => Panics
      end
  end.
End defs.
End Locker.

(** ** Package queue *)

Module Queue.
Section defs.
Context {T W : Type} `{!Zero T} (sch : Scheduler).

(** Nodes live in the heap [nodes] of the queue; a [*queue_node] is an
    index into it.  Nodes are never freed. *)
Abbreviation loc := nat (only parsing).

Record queue_node : Type := {
  value : T;
  next : ptr loc
}.

Record t : Type := {
  nodes : list queue_node;
  front : ptr loc;
  back : ptr loc;
  size : ptr (Subject.t Z W)
}.

(** [new(Queue[T])] *)
Definition new : t :=
  {| nodes := []; front := None; back := None; size := None |}.

Definition set_next (n : ptr loc) (nd : queue_node) : queue_node :=
  {| value := value nd; next := n |}.

Definition Enqueue (queue : ptr t) (v : T) (w : W)
  : ptr t * W * option error :=
  match queue with
  | None => (None, w, Some ErrNilReceiver)
  | Some q =>
      let node := length (nodes q) in
      let heap := nodes q ++ [{| value := v; next := None |}] in
      let '(front', heap') :=
        match back q with
        | None => (Some node, heap)
        | Some b => (front q, alter (set_next (Some node)) b heap)
        end in
      let size0 :=
        match size q with
        | None => Some Subject.new
        | Some s => Some s
        end in
      let '(size', w', _) :=
        Subject.Edit sch size0 (Some (fun size => int_wrap (size + 1))) w in
      (Some {| nodes := heap'; front := front'; back := Some node;
               size := size' |}, w', None)
  end.

Definition EnqueueMany (queue : ptr t) (values : list T) (w : W)
  : ptr t * W * option error :=
  match values with
  | [] => (queue, w, None)
  | _ =>
      match queue with
      | None => (None, w, Some ErrNilReceiver)
      | Some _ =>
          let '(queue', w') :=
            foldl (fun '(q, w) v => let '(q', w', _) := Enqueue q v w in (q', w'))
                  (queue, w) values in
          (queue', w', None)
      end
  end.

(** Following a pointer that is not in the heap is a run-time panic. *)
Definition Dequeue (queue : ptr t) (w : W)
  : outcome (ptr t * W * (T * option error)) :=
  match queue with
  | None => Returns (None, w, (zero, Some ErrNilReceiver))
  | Some q =>
      match front q with
      | None => Returns (Some q, w, (zero, Some ErrEmptyQueue))
      | Some f =>
          match nodes q !! f with
          | None => Panics
          | Some toRemove =>
              let '(front', back') :=
                match next toRemove with
                | None => (None, None)
                | Some n => (Some n, back q)
                end in
              let '(size', w', _) :=
                Subject.Edit sch (size q)
                  (Some (fun size => int_wrap (size - 1))) w in
              Returns (Some {| nodes := nodes q; front := front';
                               back := back'; size := size' |},
                       w', (value toRemove, None))
          end
      end
  end.

Definition Peek (queue : ptr t) : outcome (T * option error) :=
  match queue with
  | None => Returns (zero, Some ErrNilReceiver)
  | Some q =>
      match front q with
      | None => Returns (zero, Some ErrEmptyQueue)
      | Some f =>
          match nodes q !! f with
          | None => Panics
          | Some nd => Returns (value nd, None)
          end
      end
  end.

Definition IsEmpty (queue : ptr t) : bool :=
  match queue with
  | None => true
  | Some q => bool_decide (front q = None)
  end.

Definition Size (queue : ptr t) : Z :=
  match queue with
  | None => 0
  | Some q => Subject.MustGet (size q)
  end.

Definition Reset (queue : ptr t) : ptr t :=
  match queue with
  | None => None
  | Some q =>
      match front q with
      | None => Some q
      | Some _ =>
          Some {| nodes := nodes q; front := None; back := None;
                  size := None |}
      end
  end.

(** [for node := queue.front; node != nil; node = node.next], at most
    [fuel] nodes. *)
Fixpoint walk (fuel : nat) (heap : list queue_node) (node : ptr loc)
  : list T :=
  match fuel with
  | O => []
  | S fuel' =>
      match node with
      | None => []
      | Some a =>
          match heap !! a with
          | None => []
          | Some nd => value nd :: walk fuel' heap (next nd)
          end
      end
  end.

(** The values held by the queue, front first: the traversal [Slice]
    and [GoString] make. *)
Definition elements (q : t) : list T :=
  walk (length (nodes q)) (nodes q) (front q).

Definition Slice (queue : ptr t) : list T :=
  match queue with
  | None => []
  | Some q =>
      if bool_decide (Subject.MustGet (size q) = 0) then []
      else elements q
  end.

Definition ObserveSize (queue : ptr t) (fn : option (Action Z W))
  : ptr t * option error :=
  match fn with
  | None => (queue, None)
  | Some fn =>
      match queue with
      | None => (None, Some ErrNilReceiver)
      | Some q =>
          let o := FromAction (Some fn) in
          let size0 :=
            match size q with
            | None => Some Subject.new
            | Some s => Some s
            end in
          let '(size', _) := Subject.Attach size0 o in
          (Some {| nodes := nodes q; front := front q; back := back q;
                   size := size' |}, None)
      end
  end.

(** The loop of [Copy]: for each further node [n] of the original, a fresh
    node with its value is linked after the [back] of the copy.  The copy
    has a heap of its own.  [fuel] bounds the nodes visited: when it runs
    out the original is cyclic and the loop does not end. *)
Fixpoint copy_rest (fuel : nat) (heap : list queue_node) (n : ptr loc)
    (q_copy : t) : outcome t :=
  match n with
  | None => Returns q_copy
  | Some a =>
      match fuel with
      | O => Blocks
      | S fuel' =>
          match heap !! a with
          | None => Panics
          | Some nd =>
              match back q_copy with
              | None => Panics
              | Some b =>
                  let node := length (nodes q_copy) in
                  copy_rest fuel' heap (next nd)
                    {| nodes :=
                         alter (set_next (Some node)) b
                           (nodes q_copy
                            ++ [{| value := value nd; next := None |}]);
                       front := front q_copy; back := Some node;
                       size := size q_copy |}
              end
          end
      end
  end.

Definition Copy (queue : ptr t) : outcome (ptr t) :=
  match queue with
  | None => Returns None
  | Some q =>
      let size_copy := Subject.Copy (size q) in
      match front q with
      | None =>
          Returns (Some {| nodes := []; front := None; back := None;
                           size := size_copy |})
      | Some f =>
          match nodes q !! f with
          | None => Panics
          | Some first =>
              match copy_rest (length (nodes q)) (nodes q) (next first)
                      {| nodes := [{| value := value first; next := None |}];
                         front := Some O; back := Some O;
                         size := size_copy |} with
              | Returns q_copy => Returns (Some q_copy)
              | Blocks => Blocks
              | Panics => Panics
              end
          end
      end
  end.
End defs.
Arguments t : clear implicits.
Arguments queue_node : clear implicits.
End Queue.

(** ** Package buffer/internal *)

Module Buffer.
(** [type BufferCondition int], with [IsEmpty = iota] and [IsRunning]. *)
Definition IsEmpty : Z := 0.
Definition IsRunning : Z := 1.

(** The two loops [Start] launches with [go]. *)
Inductive goroutine : Type :=
| go_listenForIncomingMessages
| go_sendMessagesFromBuffer.

(** How a blocking send [ch <- msg] on an open channel ends. *)
Inductive send_fate : Type :=
| Taken            (* a receiver takes the value *)
| ClosedMeanwhile  (* the channel is closed while the sender waits *)
| NeverTaken.

(** How a blocking receive [<-ch] on an open channel ends. *)
Inductive recv_fate (T : Type) : Type :=
| Got (msg : T)    (* a sender hands over [msg] *)
| GotClosed        (* the channel is closed while the receiver waits *)
| NeverGot.
Arguments Got {T} msg.
Arguments GotClosed {T}.
Arguments NeverGot {T}.

Section defs.
Context {T : Type} `{!Zero T} (sch : Scheduler).

(** An unbuffered [chan T]: whether it was closed, how many receivers are
    parked on it, and the values handed to receivers so far. *)
Record chan : Type := {
  closed : bool;
  recvq : nat;
  delivered : list T
}.

(** [make(chan T)] *)
Definition make_chan : chan :=
  {| closed := false; recvq := 0; delivered := [] |}.

(** A goroutine blocks in [<-ch]. *)
Definition park_receiver (ch : chan) : chan :=
  {| closed := closed ch; recvq := S (recvq ch); delivered := delivered ch |}.

(** [select { case ch <- msg: (true) default: (false) }] *)
Definition try_send (ch : ptr chan) (msg : T) : outcome (ptr chan * bool) :=
  match ch with
  | None => Returns (None, false)
  | Some c =>
      if closed c then Panics
      else
        match recvq c with
        | O => Returns (Some c, false)
        | S n =>
            Returns (Some {| closed := false; recvq := n;
                             delivered := delivered c ++ [msg] |}, true)
        end
  end.

(** The observers of the queue's size reach the Buffer's [locker] field. *)
Record t : Type := {
  q : ptr (Queue.t T (ptr Locker.t));
  sendTo : ptr chan;
  receiveFrom : ptr chan;
  wg : Z;
  locker : ptr Locker.t
}.

(** [new(Buffer[T])] *)
Definition new : t :=
  {| q := None; sendTo := None; receiveFrom := None; wg := 0;
     locker := None |}.

(** The body of the inbound loop: [_ = b.q.Enqueue(msg)]. *)
Definition accept (b : t) (msg : T) : t :=
  let '(q', lk', _) := Queue.Enqueue sch (q b) msg (locker b) in
  {| q := q'; sendTo := sendTo b; receiveFrom := receiveFrom b;
     wg := wg b; locker := lk' |}.

(** The inbound loop, for the values [msgs] it receives from [sendTo]
    before that channel is closed. *)
Definition listenForIncomingMessages (b : t) (msgs : list T) : t :=
  let b1 := foldl accept b msgs in
  let '(lk', _) := Locker.ChangeValue sch (locker b1) IsRunning false in
  {| q := q b1; sendTo := sendTo b1; receiveFrom := receiveFrom b1;
     wg := wg b1 - 1; locker := lk' |}.

Definition sendSingleMessage (b : t) : outcome (t * (bool * bool)) :=
  match Queue.Peek (q b) with
  | Panics => Panics
  | Blocks => Blocks
  | Returns (_, Some _) => Returns (b, (true, true))
  | Returns (msg, None) =>
      match try_send (receiveFrom b) msg with
      | Panics => Panics
      | Blocks => Blocks
      | Returns (ch', true) =>
          match Queue.Dequeue sch (q b) (locker b) with
          | Panics => Panics
          | Blocks => Blocks
          | Returns (q', lk', (_, err)) =>
              let b' := {| q := q'; sendTo := sendTo b; receiveFrom := ch';
                           wg := wg b; locker := lk' |} in
              match err with
              | Some _ => Returns (b', (true, false))
              | None => Returns (b', (false, true))
              end
          end
      | Returns (_, false) => Returns (b, (false, false))
      end
  end.

(** The size observer [Start] installs:
    [func(val int) error { return b.locker.ChangeValue(IsEmpty, val == 0) }] *)
Definition size_observer : Action Z (ptr Locker.t) :=
  fun val lk => Locker.ChangeValue sch lk IsEmpty (bool_decide (val = 0)).

(** Besides the error, the goroutines launched by the call. *)
Definition Start (b : ptr t) : ptr t * option error * list goroutine :=
  match b with
  | None => (None, Some ErrNilReceiver, [])
  | Some b0 =>
      match locker b0 with
      | Some _ => (Some b0, None, [])
      | None =>
          let l := Locker.NewLocker in
          let l := Locker.SetSubject l IsEmpty true true in
          let l := Locker.SetSubject l IsRunning true true in
          let '(q', err) :=
            Queue.ObserveSize (Some Queue.new) (Some size_observer) in
          match err with
          | Some _ =>
              (Some {| q := q'; sendTo := sendTo b0;
                       receiveFrom := receiveFrom b0; wg := wg b0;
                       locker := Some l |}, err, [])
          | None =>
              (Some {| q := q'; sendTo := Some make_chan;
                       receiveFrom := Some make_chan; wg := wg b0 + 2;
                       locker := Some l |},
               None,
               [go_listenForIncomingMessages; go_sendMessagesFromBuffer])
          end
      end
  end.

Definition Reset (b : ptr t) : ptr t :=
  match b with
  | None => None
  | Some b0 =>
      match q b0 with
      | None => Some b0
      | Some _ =>
          Some {| q := Queue.Reset (q b0); sendTo := sendTo b0;
                  receiveFrom := receiveFrom b0; wg := wg b0;
                  locker := locker b0 |}
      end
  end.

(** [fate] says how the blocking send ends when it is reached. *)
Definition Send (b : ptr t) (msg : T) (fate : send_fate)
  : outcome (option error) :=
  match b with
  | None => Returns (Some ErrNilReceiver)
  | Some b0 =>
      match sendTo b0 with
      | None => Returns (Some ErrAlreadyClosed)
      | Some c =>
          if closed c then Panics
          else
            match fate with
            | Taken => Returns None
            | ClosedMeanwhile => Panics
            | NeverTaken => Blocks
            end
      end
  end.

(** [fate] says how the blocking receive ends when it is reached. *)
Definition Receive (b : ptr t) (fate : recv_fate T)
  : outcome (T * option error) :=
  match b with
  | None => Returns (zero, Some ErrNilReceiver)
  | Some b0 =>
      match receiveFrom b0 with
      | None => Returns (zero, Some ErrAlreadyClosed)
      | Some c =>
          if closed c then Returns (zero, Some ErrAlreadyClosed)
          else
            match fate with
            | Got msg => Returns (msg, None)
            | GotClosed => Returns (zero, Some ErrAlreadyClosed)
            | NeverGot => Blocks
            end
      end
  end.
End defs.
Arguments t : clear implicits.
Arguments chan : clear implicits.
End Buffer.

(** ** The methods of Subject as calls *)

Module SubjectOp.
Section defs.
Context {T W : Type} `{!Zero T} (sch : Scheduler).

(** A call of a method of [*Subject[T]], with its arguments. *)
Inductive t : Type :=
| Notify (change : T)
| Cleanup
| Set_ (value : T)
| Get
| MustGet
| Edit (fn : option (T -> T))
| Attach (o : option (Observer.t T W))
| NotifyAll
| Copy.

(** The error the call returns.  [Cleanup], [MustGet] and [Copy] have no
    error result, which is [None] here. *)
Definition error_of (op : t) (s : ptr (Subject.t T W)) (w : W)
  : option error :=
  match op with
  | Notify change => (Subject.Notify sch s change w).2
  | Cleanup => None
  | Set_ value => (Subject.Set_ sch s value w).2
  | Get => (Subject.Get s).2
  | MustGet => None
  | Edit fn => (Subject.Edit sch s fn w).2
  | Attach o => (Subject.Attach s o).2
  | NotifyAll => (Subject.NotifyAll sch s w).2
  | Copy => None
  end.

(** The calls that reach the receiver's nil check: [Edit] and [Attach]
    return early, with no error, for a nil argument. *)
Definition checks_receiver (op : t) : bool :=
  match op with
  | Notify _ | Set_ _ | Get | NotifyAll => true
  | Edit fn => bool_decide (is_Some fn)
  | Attach o => bool_decide (is_Some o)
  | Cleanup | MustGet | Copy => false
  end.
End defs.
Arguments t : clear implicits.
End SubjectOp.

(** ** Vocabulary of the statements *)

(** An error caused by the observers of [s0]: what [errors.Join] makes of a
    non-empty list of errors, each of them returned by the [Notify] of an
    observer attached to [s0]. *)
Definition from_observers {T W : Type} (s0 : Subject.t T W) (e : error) : Prop :=
  exists es, e = joinError es /\ es <> [] /\
    forall x, x ∈ es ->
      exists o st w, o ∈ Subject.observers s0
                     /\ (Observer.Notify o st w).2 = Some x.

(** A failing observer, and one that succeeds. *)
Definition failing_observer (msg : string) : Observer.t Z unit :=
  reactiveObserver (fun _ w => (w, Some (ErrClient msg))).

Definition quiet_observer : Observer.t Z unit :=
  reactiveObserver (fun _ w => (w, None)).

Definition two_observers : Subject.t Z unit :=
  {| Subject.state := 0;
     Subject.observers := [failing_observer "boom"; quiet_observer] |}.

(** The copy of the conditions [hasFalse] makes. *)
Definition snapshot (l : Locker.t) : gmap Z bool :=
  Subject.MustGet <$> Locker.subjects l.

(** Every registered condition is true. *)
Definition all_true (l : Locker.t) : Prop :=
  forall k b, snapshot l !! k = Some b -> b = true.

(** An argument for [DoFunc] that records the snapshots it is called with
    and asks to go on. *)
Definition record_call (m : gmap Z bool) (calls : list (gmap Z bool))
  : list (gmap Z bool) * option error :=
  (calls ++ [m], None).

(** A Locker with the two conditions of the Buffer, the first one false. *)
Definition locker_with_false : Locker.t :=
  Locker.SetSubject
    (Locker.SetSubject Locker.NewLocker Buffer.IsEmpty false true)
    Buffer.IsRunning true true.

(** The same Locker with both conditions true. *)
Definition locker_all_true : Locker.t :=
  Locker.SetSubject
    (Locker.SetSubject Locker.NewLocker Buffer.IsEmpty true true)
    Buffer.IsRunning true true.

(** ** Calls on a Queue and the shape of its heap *)

Module QueueOp.
Section defs.
Context {T W : Type} `{!Zero T} (sch : Scheduler).

(** A call that may change the queue. *)
Inductive t : Type :=
| Enqueue (v : T)
| EnqueueMany (vs : list T)
| Dequeue
| Reset
| ObserveSize (fn : option (Action Z W)).

Definition run (op : t) (st : ptr (Queue.t T W) * W)
  : outcome (ptr (Queue.t T W) * W) :=
  let '(queue, w) := st in
  match op with
  | Enqueue v =>
      let '(queue', w', _) := Queue.Enqueue sch queue v w in
      Returns (queue', w')
  | EnqueueMany vs =>
      let '(queue', w', _) := Queue.EnqueueMany sch queue vs w in
      Returns (queue', w')
  | Dequeue =>
      match Queue.Dequeue sch queue w with
      | Returns (queue', w', _) => Returns (queue', w')
      | Blocks => Blocks
      | Panics => Panics
      end
  | Reset => Returns (Queue.Reset queue, w)
  | ObserveSize fn => Returns ((Queue.ObserveSize queue fn).1, w)
  end.

(** The calls [ops], one after the other. *)
Fixpoint run_all (ops : list t) (st : ptr (Queue.t T W) * W)
  : outcome (ptr (Queue.t T W) * W) :=
  match ops with
  | [] => Returns st
  | op :: rest =>
      match run op st with
      | Returns st' => run_all rest st'
      | Blocks => Blocks
      | Panics => Panics
      end
  end.

(** What the call does to the sequence of values a FIFO holds. *)
Definition model (l : list T) (op : t) : list T :=
  match op with
  | Enqueue v => l ++ [v]
  | EnqueueMany vs => l ++ vs
  | Dequeue => tail l
  | Reset => []
  | ObserveSize _ => l
  end.

(** [Enqueue] of each value of [vs], in order. *)
Definition enqueue_each (vs : list T) (st : ptr (Queue.t T W) * W)
  : ptr (Queue.t T W) * W :=
  foldl (fun '(queue, w) v =>
           let '(queue', w', _) := Queue.Enqueue sch queue v w in
           (queue', w'))
        st vs.

(** [n] successive calls of [Dequeue], with what each of them returned. *)
Fixpoint dequeue_n (n : nat) (st : ptr (Queue.t T W) * W)
  : outcome (ptr (Queue.t T W) * W * list (T * option error)) :=
  match n with
  | O => Returns (st, [])
  | S n' =>
      match Queue.Dequeue sch st.1 st.2 with
      | Returns (queue', w', r) =>
          match dequeue_n n' (queue', w') with
          | Returns (st'', rs) => Returns (st'', r :: rs)
          | Blocks => Blocks
          | Panics => Panics
          end
      | Blocks => Blocks
      | Panics => Panics
      end
  end.
End defs.
Arguments t : clear implicits.
End QueueOp.

Section queue_shape.
Context {T W : Type}.

(** [cells] lists the address and the value of the nodes of a chain, in
    order: each node is in the heap and its [next] is the address of the
    node after it, nil for the last one. *)
Fixpoint linked (heap : list (Queue.queue_node T)) (cells : list (nat * T))
  : Prop :=
  match cells with
  | [] => True
  | c :: rest =>
      heap !! c.1
        = Some {| Queue.value := c.2; Queue.next := fst <$> head rest |}
      /\ linked heap rest
  end.

(** The structural invariant of the queue: [front] is the first node of a
    chain of distinct nodes (nil for the empty chain), [back] is its last
    node (nil for the empty chain), and the size Subject holds the number
    of nodes, as an [int]. *)
Record represents (q : Queue.t T W) (cells : list (nat * T)) : Prop := {
  rep_linked : linked (Queue.nodes q) cells;
  rep_front : Queue.front q = fst <$> head cells;
  rep_back : Queue.back q = fst <$> last cells;
  rep_nodup : NoDup cells.*1;
  rep_size :
    Subject.MustGet (Queue.size q) = int_wrap (Z.of_nat (length cells));
  rep_size_live : cells <> [] -> is_Some (Queue.size q)
}.
End queue_shape.

(** ** Buffers used in the statements *)

(** A Buffer of integers after [Start]. *)
Definition started : Buffer.t Z :=
  default Buffer.new (Buffer.Start in_order (Some Buffer.new)).1.1.

(** A receiver blocks in [Receive] on the outbound channel. *)
Definition with_receiver {T : Type} (b : Buffer.t T) : Buffer.t T :=
  {| Buffer.q := Buffer.q b; Buffer.sendTo := Buffer.sendTo b;
     Buffer.receiveFrom := Buffer.park_receiver <$> Buffer.receiveFrom b;
     Buffer.wg := Buffer.wg b; Buffer.locker := Buffer.locker b |}.

(** The started Buffer after its inbound loop accepted 5 and then 6, with one
    receiver waiting. *)
Definition relaying : Buffer.t Z :=
  with_receiver (Buffer.accept in_order (Buffer.accept in_order started 5) 6).

(** The started Buffer after its inbound loop accepted 5 and [Reset] was
    called. *)
Definition after_reset : Buffer.t Z :=
  default Buffer.new (Buffer.Reset (Some (Buffer.accept in_order started 5))).

(** The outbound channel is nil, or open with no receiver waiting. *)
Definition no_receiver {T : Type} (ch : ptr (Buffer.chan T)) : Prop :=
  match ch with
  | None => True
  | Some c => Buffer.closed c = false /\ Buffer.recvq c = O
  end.

(** The outbound channel is nil, or closed by the time the receive ends. *)
Definition outbound_gone {T : Type} (b0 : Buffer.t T)
    (fate : Buffer.recv_fate T) : Prop :=
  match Buffer.receiveFrom b0 with
  | None => True
  | Some c => Buffer.closed c = true \/ fate = Buffer.GotClosed
  end.

(** The Locker condition [IsEmpty] mirrors [Queue.Size() == 0]. *)
Definition IsEmpty_mirrors_size {T : Type} (b : Buffer.t T) : Prop :=
  Locker.Get (Buffer.locker b) Buffer.IsEmpty
  = (bool_decide (Queue.Size (Buffer.q b) = 0), None).

(** The Buffer as [Start] wires it: the queue satisfies its invariant, its
    size Subject carries the observer installed by [Start], the Locker has
    the condition [IsEmpty] and that condition mirrors the size, and the
    outbound channel is open. *)
Definition wired {T : Type} (sch : Scheduler) (b : Buffer.t T)
    (cells : list (nat * T)) : Prop :=
  exists q0 s l sb ch,
    Buffer.q b = Some q0 /\ represents q0 cells
    /\ Queue.size q0 = Some s
    /\ Subject.observers s = [reactiveObserver (Buffer.size_observer sch)]
    /\ Buffer.locker b = Some l
    /\ Locker.subjects l !! Buffer.IsEmpty = Some (Some sb)
    /\ Subject.state sb = bool_decide (Subject.state s = 0)
    /\ Buffer.receiveFrom b = Some ch /\ Buffer.closed ch = false.

(** What happens to a running Buffer, [Reset] apart: the inbound loop
    accepts a value, a receiver starts to wait on the outbound channel, the
    outbound loop attempts to send one message. *)
Inductive relay_step (T : Type) : Type :=
| Incoming (msg : T)
| ReceiverWaits
| Outgoing.
Arguments Incoming {T} msg.
Arguments ReceiverWaits {T}.
Arguments Outgoing {T}.

Definition relay_run {T : Type} `{!Zero T} (sch : Scheduler)
    (b : outcome (Buffer.t T)) (st : relay_step T) : outcome (Buffer.t T) :=
  match b with
  | Returns b =>
      match st with
      | Incoming msg => Returns (Buffer.accept sch b msg)
      | ReceiverWaits => Returns (with_receiver b)
      | Outgoing =>
          match Buffer.sendSingleMessage sch b with
          | Returns (b', _) => Returns b'
          | Blocks => Blocks
          | Panics => Panics
          end
      end
  | Blocks => Blocks
  | Panics => Panics
  end.

(** ** Writes to a Subject, and registrations in a Locker *)

Module SubjectWrite.
Section defs.
Context {T W : Type} `{!Zero T} (sch : Scheduler).

(** A call that writes the state of a Subject. *)
Inductive t : Type :=
| Notify (change : T)
| Set_ (value : T)
| Edit (fn : T -> T).

Definition run (st : ptr (Subject.t T W) * W) (wr : t)
  : ptr (Subject.t T W) * W :=
  let '(s, w) := st in
  match wr with
  | Notify change =>
      let '(s', w', _) := Subject.Notify sch s change w in (s', w')
  | Set_ value =>
      let '(s', w', _) := Subject.Set_ sch s value w in (s', w')
  | Edit fn =>
      let '(s', w', _) := Subject.Edit sch s (Some fn) w in (s', w')
  end.

(** The state the write asks for. *)
Definition written (old : T) (wr : t) : T :=
  match wr with
  | Notify change => change
  | Set_ value => value
  | Edit fn => fn old
  end.
End defs.
Arguments t : clear implicits.
End SubjectWrite.

(** [Attach] of each observer of [os], in order. *)
Definition attach_each {T W : Type} (s : ptr (Subject.t T W))
    (os : list (option (Observer.t T W))) : ptr (Subject.t T W) :=
  foldl (fun s o => (Subject.Attach s o).1) s os.

(** The pulse a condition sends, by the flag it was registered with. *)
Definition pulse_of (broadcast : bool) : Locker.pulse :=
  if broadcast then Locker.Broadcast else Locker.Signal.

(** [key] is a condition of [l] whose Subject has the one observer
    [SetSubject] gives it: it pulses the condition variable, in the mode
    [broadcast]. *)
Definition registered (l : Locker.t) (key : Z) (broadcast : bool) : Prop :=
  exists sb o,
    Locker.subjects l !! key = Some (Some sb)
    /\ Subject.observers sb = [o]
    /\ forall b c,
        Observer.Notify o b c
        = ({| Locker.pulses := Locker.pulses c ++ [pulse_of broadcast] |},
           None).

(** ** Traffic on a Queue and what its size observer is told *)

Module QueueTraffic.
Section defs.
Context {T W : Type}.

(** The calls that change the contents of a queue. *)
Inductive t : Type :=
| Enqueue (v : T)
| EnqueueMany (vs : list T)
| Dequeue
| Reset.

Definition op (tr : t) : QueueOp.t T W :=
  match tr with
  | Enqueue v => QueueOp.Enqueue v
  | EnqueueMany vs => QueueOp.EnqueueMany vs
  | Dequeue => QueueOp.Dequeue
  | Reset => QueueOp.Reset
  end.

(** The sizes reported to the observer of a queue that holds [len] elements
    while the calls [trs] are made, in order.  [observed] says whether the
    observer is still attached: every element enqueued and every element
    dequeued is reported with the size after it, a [Dequeue] of an empty
    queue is not, and a [Reset] of a queue that is not empty reports nothing
    and detaches the observer. *)
Fixpoint size_reports (len : nat) (observed : bool) (trs : list t) : list Z :=
  match trs with
  | [] => []
  | Enqueue _ :: rest =>
      (if observed then [int_wrap (Z.of_nat (S len))] else [])
      ++ size_reports (S len) observed rest
  | EnqueueMany vs :: rest =>
      (if observed
       then (fun i => int_wrap (Z.of_nat (len + S i))) <$> seq 0 (length vs)
       else [])
      ++ size_reports (len + length vs) observed rest
  | Dequeue :: rest =>
      match len with
      | O => size_reports O observed rest
      | S len' =>
          (if observed then [int_wrap (Z.of_nat len')] else [])
          ++ size_reports len' observed rest
      end
  | Reset :: rest =>
      match len with
      | O => size_reports O observed rest
      | S _ => size_reports O false rest
      end
  end.
End defs.
Arguments t : clear implicits.
End QueueTraffic.

(** The size observer [fn] is told the sizes [reports], one after the other;
    what it returns is dropped. *)
Definition tell {W : Type} (fn : Action Z W) (w : W) (reports : list Z) : W :=
  foldl (fun w n => (fn n w).1) w reports.

(** How the size Subject of [q] is observed: by the one observer made from
    [fn], or by nobody. *)
Definition observed_by {T W : Type} (fn : Action Z W) (observed : bool)
    (q : Queue.t T W) : Prop :=
  if observed
  then exists s, Queue.size q = Some s
                 /\ Subject.observers s = [reactiveObserver fn]
  else forall s, Queue.size q = Some s -> Subject.observers s = [].

(** ** The running relay: the two loops of a Buffer and its callers *)

Module Relay.
Section defs.
Context {T : Type} `{!Zero T} (sch : Scheduler).

(** Where the outbound loop [sendMessagesFromBuffer] stands. *)
Inductive outbound_pc : Type :=
| OutTop                      (* first loop, at [b.locker.Get(IsRunning)] *)
| OutWait                     (* in [DoFunc], at [l.hasFalse()]: on entry or
                                 back from [cond.Wait()] *)
| OutInFn (m : gmap Z bool)   (* in [fn], at [b.sendSingleMessage()] *)
| OutFlush                    (* second loop, at [b.sendSingleMessage()] *)
| OutDone.                    (* returned *)

(** One step of [sendMessagesFromBuffer].  Waiting in [cond.Wait()] is a
    step that stays at [OutWait].  The last step of the second loop also
    sets [locker] and [q] to nil and runs the deferred [wg.Done()]. *)
Definition sendMessagesFromBuffer_step (pc : outbound_pc) (b : Buffer.t T)
  : outcome (outbound_pc * Buffer.t T) :=
  match pc with
  | OutTop =>
      match Locker.Get (Buffer.locker b) Buffer.IsRunning with
      | (_, Some _) => Panics
      | (true, None) => Returns (OutWait, b)
      | (false, None) => Returns (OutFlush, b)
      end
  | OutWait =>
      match Buffer.locker b with
      | None => Panics
      | Some l =>
          let '(map_copy, ok) := Locker.hasFalse l in
          if ok then Returns (OutInFn map_copy, b) else Returns (OutWait, b)
      end
  | OutInFn m =>
      match Buffer.sendSingleMessage sch b with
      | Returns (b', (isEmpty, ok)) =>
          if negb ok || isEmpty
          then
            if default false (m !! Buffer.IsRunning)
            then Returns (OutTop, b')
            else Returns (OutFlush, b')
          else Returns (OutInFn m, b')
      | Blocks => Blocks
      | Panics => Panics
      end
  | OutFlush =>
      match Buffer.sendSingleMessage sch b with
      | Returns (b', (isEmpty, _)) =>
          if isEmpty
          then Returns (OutDone,
                        {| Buffer.q := None; Buffer.sendTo := Buffer.sendTo b';
                           Buffer.receiveFrom := Buffer.receiveFrom b';
                           Buffer.wg := Buffer.wg b' - 1;
                           Buffer.locker := None |})
          else Returns (OutFlush, b')
      | Blocks => Blocks
      | Panics => Panics
      end
  | OutDone => Returns (OutDone, b)
  end.

(** Where the caller of [Close] stands. *)
Inductive close_pc : Type :=
| CloseIdle       (* [Close] not called yet *)
| CloseClosed     (* after [close(b.sendTo)] *)
| CloseWaiting    (* after [b.sendTo = nil], in [b.wg.Wait()] *)
| CloseDone.      (* returned *)

(** One step of [Close] on a live Buffer.  [b.wg.Wait()] goes on when the
    counter is zero and is a step that stays at [CloseWaiting] otherwise;
    closing a closed or a nil channel panics. *)
Definition Close_step (pc : close_pc) (b : Buffer.t T)
  : outcome (close_pc * Buffer.t T) :=
  match pc with
  | CloseIdle =>
      match Buffer.sendTo b with
      | None => Returns (CloseDone, b)
      | Some c =>
          if Buffer.closed c then Panics
          else
            Returns (CloseClosed,
                     {| Buffer.q := Buffer.q b;
                        Buffer.sendTo :=
                          Some {| Buffer.closed := true;
                                  Buffer.recvq := Buffer.recvq c;
                                  Buffer.delivered := Buffer.delivered c |};
                        Buffer.receiveFrom := Buffer.receiveFrom b;
                        Buffer.wg := Buffer.wg b;
                        Buffer.locker := Buffer.locker b |})
      end
  | CloseClosed =>
      Returns (CloseWaiting,
               {| Buffer.q := Buffer.q b; Buffer.sendTo := None;
                  Buffer.receiveFrom := Buffer.receiveFrom b;
                  Buffer.wg := Buffer.wg b; Buffer.locker := Buffer.locker b |})
  | CloseWaiting =>
      if bool_decide (Buffer.wg b = 0)
      then
        match Buffer.receiveFrom b with
        | None => Panics
        | Some c =>
            if Buffer.closed c then Panics
            else
              Returns (CloseDone,
                       {| Buffer.q := Buffer.q b; Buffer.sendTo := Buffer.sendTo b;
                          Buffer.receiveFrom := None;
                          Buffer.wg := Buffer.wg b;
                          Buffer.locker := Buffer.locker b |})
        end
      else Returns (CloseWaiting, b)
  | CloseDone => Returns (CloseDone, b)
  end.

(** The Buffer, its two loops and the caller of [Close].  [inbound_closed]
    is the state of the channel the inbound loop ranges over, which it
    fetched from [sendTo] when it started.  [accepted] lists the messages
    the inbound loop has taken from producers and [received] those handed
    to consumers, oldest first. *)
Record t : Type := {
  buf : Buffer.t T;
  inbound_alive : bool;
  inbound_closed : bool;
  outbound : outbound_pc;
  closer : close_pc;
  accepted : list T;
  received : list T
}.

(** Right after [Start] on a new Buffer. *)
Definition init : t :=
  {| buf := default Buffer.new (Buffer.Start sch (Some Buffer.new)).1.1;
     inbound_alive := true; inbound_closed := false;
     outbound := OutTop; closer := CloseIdle;
     accepted := []; received := [] |}.

(** What moves the relay: a producer calls [Send], a consumer calls
    [Receive], somebody calls [Reset], the caller of [Close] or one of the
    two loops takes a step. *)
Inductive event : Type :=
| Send (msg : T)
| Receive
| Reset
| Close
| Inbound
| Outbound.

Definition step (st : t) (ev : event) : outcome t :=
  match ev with
  | Send msg =>
      (* the blocking send is taken when the inbound loop is there to
         receive; the loop then runs its body *)
      match Buffer.Send (Some (buf st)) msg
              (if inbound_alive st then Buffer.Taken else Buffer.NeverTaken)
      with
      | Returns None =>
          Returns {| buf := Buffer.accept sch (buf st) msg;
                     inbound_alive := inbound_alive st;
                     inbound_closed := inbound_closed st;
                     outbound := outbound st; closer := closer st;
                     accepted := accepted st ++ [msg];
                     received := received st |}
      | Returns (Some _) => Returns st
      | Blocks => Returns st
      | Panics => Panics
      end
  | Receive =>
      (* the consumer waits on the outbound channel unless [Receive]
         returns at once with an error *)
      match Buffer.Receive (Some (buf st)) Buffer.NeverGot with
      | Blocks =>
          Returns {| buf := with_receiver (buf st);
                     inbound_alive := inbound_alive st;
                     inbound_closed := inbound_closed st;
                     outbound := outbound st; closer := closer st;
                     accepted := accepted st; received := received st |}
      | _ => Returns st
      end
  | Reset =>
      Returns {| buf := default (buf st) (Buffer.Reset (Some (buf st)));
                 inbound_alive := inbound_alive st;
                 inbound_closed := inbound_closed st;
                 outbound := outbound st; closer := closer st;
                 accepted := accepted st; received := received st |}
  | Close =>
      match Close_step (closer st) (buf st) with
      | Returns (pc, b) =>
          Returns {| buf := b; inbound_alive := inbound_alive st;
                     inbound_closed :=
                       match pc with
                       | CloseIdle => inbound_closed st
                       | _ => true
                       end;
                     outbound := outbound st; closer := pc;
                     accepted := accepted st; received := received st |}
      | Blocks => Blocks
      | Panics => Panics
      end
  | Inbound =>
      (* the range loop ends when its channel is closed *)
      if inbound_alive st && inbound_closed st
      then
        Returns {| buf := Buffer.listenForIncomingMessages sch (buf st) [];
                   inbound_alive := false;
                   inbound_closed := inbound_closed st;
                   outbound := outbound st; closer := closer st;
                   accepted := accepted st; received := received st |}
      else Returns st
  | Outbound =>
      match sendMessagesFromBuffer_step (outbound st) (buf st) with
      | Returns (pc, b) =>
          Returns {| buf := b; inbound_alive := inbound_alive st;
                     inbound_closed := inbound_closed st;
                     outbound := pc; closer := closer st;
                     accepted := accepted st;
                     received :=
                       match Buffer.receiveFrom b with
                       | Some ch => Buffer.delivered ch
                       | None => received st
                       end |}
      | Blocks => Blocks
      | Panics => Panics
      end
  end.

(** The events [evs], one after the other. *)
Fixpoint run (evs : list event) (st : t) : outcome t :=
  match evs with
  | [] => Returns st
  | ev :: rest =>
      match step st ev with
      | Returns st' => run rest st'
      | Blocks => Blocks
      | Panics => Panics
      end
  end.


End defs.
Arguments t : clear implicits.
Arguments event : clear implicits.
End Relay.

(** ** The invariant of the running relay *)

(** What holds of a Buffer while its outbound loop runs: the queue satisfies
    its invariant and its size Subject has the observer [Start] installed or
    none; the Locker is there and its condition [IsRunning] tells whether
    the inbound loop is [alive]; the outbound channel is open and [received]
    is what was handed over through it; and the messages handed over
    followed by the messages queued are the [accepted] ones in their order,
    all of them as long as the history is [clean] (no [Reset]). *)
Definition relay_live {T : Type} (sch : Scheduler) (clean alive : bool)
    (b : Buffer.t T) (accepted received : list T) : Prop :=
  exists q0 cells observed ch l,
    Buffer.q b = Some q0 /\ represents q0 cells
    /\ observed_by (Buffer.size_observer sch) observed q0
    /\ Buffer.locker b = Some l
    /\ snapshot l !! Buffer.IsRunning = Some alive
    /\ Buffer.receiveFrom b = Some ch /\ Buffer.closed ch = false
    /\ received = Buffer.delivered ch
    /\ (Buffer.delivered ch ++ cells.*2) `sublist_of` accepted
    /\ (clean = true -> accepted = Buffer.delivered ch ++ cells.*2).






(** * Package common *)

(** The errors of the packages [common], [errors] and [context], beside the
    errors above. *)
Inductive common_error : Type :=
| ErrNilParam (param : string)       (* common.NewErrNilParam(param) *)
| ErrBadParam (param msg : string)   (* common.NewErrBadParam(param, msg) *)
| errorString (msg : string)         (* errors.New(msg) *)
| Canceled                           (* context.Canceled *)
| ErrOf (err : error).

(** What the code uses of the interface [context.Context], in a world [W]:
    whether the channel [ctx.Done()] is closed, and [ctx.Err()]. *)
Class context_Context (C W : Type) : Type := {
  Done : C -> W -> bool;
  Err : C -> W -> option common_error
}.

Module Common.
Section defs.
Context {C W : Type} `{!context_Context C W}.

(** [type Action interface { Run(ctx context.Context) error }] *)
Definition Action : Type := C -> W -> outcome (W * option common_error).

(** The loop of [RejectNilAction] over the indices still to visit:
    for every [act] in the range of the slice that is not nil, the element
    at index [top] is set to [act] and [top] is incremented.  The elements
    are read from and written to the same array. *)
Fixpoint reject_loop (idx : list nat) (arr : list (ptr Action)) (top : nat)
  : outcome (list (ptr Action) * nat) :=
  match idx with
  | [] => Returns (arr, top)
  | i :: rest =>
      match arr !! i with
      | None => Panics
      | Some None => reject_loop rest arr top
      | Some (Some act) =>
          if bool_decide (top < length arr)%nat
          then reject_loop rest (<[top := Some act]> arr) (S top)
          else Panics
      end
  end.

(** Returns the new value of [*slice] and, beside it, the array the slice
    was backed by, which the callers that share it see.  A nil slice and an
    empty one are both []. *)
Definition RejectNilAction (slice : ptr (list (ptr Action)))
  : outcome (ptr (list (ptr Action)) * list (ptr Action)) :=
  match slice with
  | None => Returns (None, [])
  | Some s =>
      if bool_decide (length s = 0%nat) then Returns (Some s, s)
      else
        match reject_loop (seq 0 (length s)) s 0 with
        | Returns (arr, top) =>
            if bool_decide (top = 0%nat)
            then Returns (Some [], replicate (length arr) None)
            else Returns (Some (take top arr),
                          take top arr ++ replicate (length arr - top) None)
        | Blocks => Blocks
        | Panics => Panics
        end
  end.

(** The loop of [Run]. *)
Fixpoint run_each (ctx : C) (acts : list (ptr Action)) (w : W)
  : outcome (W * option common_error) :=
  match acts with
  | [] => Returns (w, None)
  | None :: rest => run_each ctx rest w
  | Some act :: rest =>
      if Done ctx w then Returns (w, Err ctx w)
      else
        match act ctx w with
        | Returns (w', None) => run_each ctx rest w'
        | Returns (w', Some err) => Returns (w', Some err)
        | Blocks => Blocks
        | Panics => Panics
        end
  end.

Definition Run (ctx : ptr C) (acts : list (ptr Action)) (w : W)
  : outcome (W * option common_error) :=
  match RejectNilAction (Some acts) with
  | Returns (acts', _) =>
      let acts := default [] acts' in
      if bool_decide (length acts = 0%nat) then Returns (w, None)
      else
        match ctx with
        | None => Returns (w, Some (ErrNilParam "ctx"))
        | Some c => run_each c acts w
        end
  | Blocks => Blocks
  | Panics => Panics
  end.
End defs.
Arguments Action : clear implicits.
End Common.

(** The actions of a slice that are not nil, in order. *)
Definition compact {A : Type} (s : list (ptr A)) : list (ptr A) :=
  Some <$> omap id s.

(** * Package rws *)

Module Rws.

(** ** [Map]: a map behind a lock *)

Module Map.
Section defs.
Context {K U : Type} `{Countable K} `{!Zero U}.

(** A Go map is nil or a map. *)
Record t : Type := { m : ptr (gmap K U) }.

(** [new(rws.Map[T, U])] *)
Definition new : t := {| m := None |}.

(** [len(m)] *)
Definition len (m : ptr (gmap K U)) : nat :=
  match m with
  | None => 0
  | Some g => size g
  end.

(** Never nil. *)
Definition Copy (sm : ptr t) : t :=
  match sm with
  | None => new
  | Some s => {| m := Some (default ∅ (m s)) |}
  end.

Definition Get (sm : ptr t) (key : K) : U * bool :=
  match sm with
  | None => (zero, false)
  | Some s =>
      if bool_decide (len (m s) = 0%nat) then (zero, false)
      else
        match m s ≫= (fun g => g !! key) with
        | Some val => (val, true)
        | None => (zero, false)
        end
  end.

Definition Set_ (sm : ptr t) (key : K) (val : U) : ptr t * option error :=
  match sm with
  | None => (None, Some ErrNilReceiver)
  | Some s => (Some {| m := Some (<[key := val]> (default ∅ (m s))) |}, None)
  end.

(** [delete] on a nil map does nothing. *)
Definition Delete (sm : ptr t) (key : K) : ptr t :=
  match sm with
  | None => None
  | Some s => Some {| m := delete key <$> m s |}
  end.

Definition Len (sm : ptr t) : Z :=
  match sm with
  | None => 0
  | Some s => Z.of_nat (len (m s))
  end.

Definition Reset (sm : ptr t) : ptr t :=
  match sm with
  | None => None
  | Some s =>
      if bool_decide (len (m s) = 0%nat) then Some s
      else Some {| m := None |}
  end.

Definition GetMap (sm : ptr t) : ptr (gmap K U) :=
  match sm with
  | None => None
  | Some s => Some (default ∅ (m s))
  end.
End defs.
Arguments t : clear implicits.
Arguments t K U {_ _}.
End Map.

(** ** [Table]: a table of cells with a width and a height *)

Module Table.
Section defs.
Context {T : Type} `{!Zero T}.

Record t : Type := {
  table : list (list T);
  width : Z;
  height : Z
}.

(** [make([]T, n)] *)
Definition make (n : Z) : list T := replicate (Z.to_nat n) zero.

(** [for i := from; i < to; i++ { table = append(table, make([]T, width)) }] *)
Definition append_rows (from to width : Z) (table : list (list T))
  : list (list T) :=
  Nat.iter (Z.to_nat (to - from)) (fun table => table ++ [make width]) table.


Definition Height (tb : ptr t) : Z :=
  match tb with
  | None => 0
  | Some t0 => height t0
  end.

Definition Width (tb : ptr t) : Z :=
  match tb with
  | None => 0
  | Some t0 => width t0
  end.

(** An index expression out of range panics. *)
Definition CellAt (tb : ptr t) (x y : Z) : outcome T :=
  match tb with
  | None => Returns zero
  | Some t0 =>
      if bool_decide (y < 0) || bool_decide (x < 0) then Returns zero
      else if bool_decide (y >= height t0) || bool_decide (x >= width t0)
      then Returns zero
      else
        match table t0 !! Z.to_nat y with
        | None => Panics
        | Some row =>
            match row !! Z.to_nat x with
            | None => Panics
            | Some cell => Returns cell
            end
        end
  end.

(** [for i := 0; i < t.height; i++ { t.table[i] = f(t.table[i]) }], for the
    indices [idx] still to visit. *)
Fixpoint for_rows (f : list T -> outcome (list T)) (idx : list nat)
    (table : list (list T)) : outcome (list (list T)) :=
  match idx with
  | [] => Returns table
  | i :: rest =>
      match table !! i with
      | None => Panics
      | Some row =>
          match f row with
          | Returns row' => for_rows f rest (<[i := row']> table)
          | Blocks => Blocks
          | Panics => Panics
          end
      end
  end.

(** [s[:n:n]].  It panics when [n] is beyond the capacity of [s]; the
    capacity is taken to be the length, which it is for the rows of a table
    when they are cut: they were made with [make([]T, width, width)], cut
    with [[:n:n]] or grown by [append] to the width of the table, and are
    only cut below that width. *)
Definition cut {A : Type} (n : Z) (s : list A) : outcome (list A) :=
  if bool_decide (Z.to_nat n <= length s)%nat
  then Returns (take (Z.to_nat n) s)
  else Panics.

Definition ResizeWidth (tb : ptr t) (new_width : Z)
  : outcome (ptr t * option common_error) :=
  match tb with
  | None => Returns (None, Some (ErrOf ErrNilReceiver))
  | Some t0 =>
      if bool_decide (new_width < 0)
      then Returns (Some t0,
                    Some (ErrBadParam "new_width" "must be non-negative"))
      else if bool_decide (new_width = width t0) then Returns (Some t0, None)
      else
        let rows := seq 0 (Z.to_nat (height t0)) in
        let resized :=
          if bool_decide (new_width < width t0)
          then for_rows (cut new_width) rows (table t0)
          else
            let extension := make (new_width - width t0) in
            for_rows (fun row => Returns (row ++ extension)) rows (table t0)
        in
        match resized with
        | Returns table' =>
            Returns (Some {| table := table'; width := new_width;
                             height := height t0 |}, None)
        | Blocks => Blocks
        | Panics => Panics
        end
  end.

Definition ResizeHeight (tb : ptr t) (new_height : Z)
  : outcome (ptr t * option common_error) :=
  match tb with
  | None => Returns (None, Some (ErrOf ErrNilReceiver))
  | Some t0 =>
      if bool_decide (new_height < 0)
      then Returns (Some t0, Some (ErrBadParam "new_height" "be non-negative"))
      else if bool_decide (new_height = height t0)
      then Returns (Some t0, None)
      else
        let resized :=
          if bool_decide (new_height < height t0)
          then cut new_height (table t0)
          else Returns (append_rows (height t0) new_height (width t0)
                          (table t0))
        in
        match resized with
        | Returns table' =>
            Returns (Some {| table := table'; width := width t0;
                             height := new_height |}, None)
        | Blocks => Blocks
        | Panics => Panics
        end
  end.

Definition SetCellAt (tb : ptr t) (cell : T) (x y : Z) : outcome (ptr t) :=
  match tb with
  | None => Returns None
  | Some t0 =>
      if bool_decide (y < 0) || bool_decide (x < 0) then Returns (Some t0)
      else if bool_decide (y >= height t0) || bool_decide (x >= width t0)
      then Returns (Some t0)
      else
        match table t0 !! Z.to_nat y with
        | None => Panics
        | Some row =>
            if bool_decide (Z.to_nat x < length row)%nat
            then Returns (Some {| table :=
                                    <[Z.to_nat y := <[Z.to_nat x := cell]> row]>
                                      (table t0);
                                  width := width t0; height := height t0 |})
            else Panics
        end
  end.

Definition Free (tb : ptr t) : outcome (ptr t) :=
  match tb with
  | None => Returns None
  | Some t0 =>
      if bool_decide (length (table t0) = 0%nat)
      then Returns (Some {| table := table t0; width := 0; height := 0 |})
      else
        match for_rows (fun _ => Returns []) (seq 0 (Z.to_nat (height t0)))
                (table t0) with
        | Returns _ => Returns (Some {| table := []; width := 0; height := 0 |})
        | Blocks => Blocks
        | Panics => Panics
        end
  end.
End defs.
Arguments t : clear implicits.
End Table.
End Rws.

(** The shape of a table: as many rows as its height, each as long as its
    width. *)
Record table_shape {T : Type} (t : Rws.Table.t T) : Prop := {
  shape_width : 0 <= Rws.Table.width t;
  shape_height : 0 <= Rws.Table.height t;
  shape_rows : length (Rws.Table.table t) = Z.to_nat (Rws.Table.height t);
  shape_cols :
    Forall (fun row => length row = Z.to_nat (Rws.Table.width t))
      (Rws.Table.table t)
}.

(** The calls that change a table. *)
Module TableOp.
Inductive t (T : Type) : Type :=
| ResizeWidth (new_width : Z)
| ResizeHeight (new_height : Z)
| SetCellAt (cell : T) (x y : Z)
| Free.
Arguments ResizeWidth {T} new_width.
Arguments ResizeHeight {T} new_height.
Arguments SetCellAt {T} cell x y.
Arguments Free {T}.

Section defs.
Context {T : Type} `{!Zero T}.

Definition run (op : t T) (tb : ptr (Rws.Table.t T))
  : outcome (ptr (Rws.Table.t T)) :=
  match op with
  | ResizeWidth n =>
      match Rws.Table.ResizeWidth tb n with
      | Returns (tb', _) => Returns tb'
      | Blocks => Blocks
      | Panics => Panics
      end
  | ResizeHeight n =>
      match Rws.Table.ResizeHeight tb n with
      | Returns (tb', _) => Returns tb'
      | Blocks => Blocks
      | Panics => Panics
      end
  | SetCellAt cell x y => Rws.Table.SetCellAt tb cell x y
  | Free => Rws.Table.Free tb
  end.

Fixpoint run_all (ops : list (t T)) (tb : ptr (Rws.Table.t T))
  : outcome (ptr (Rws.Table.t T)) :=
  match ops with
  | [] => Returns tb
  | op :: rest =>
      match run op tb with
      | Returns tb' => run_all rest tb'
      | Blocks => Blocks
      | Panics => Panics
      end
  end.
End defs.
End TableOp.

(** The cell of a table at a position, if the table has one there. *)
Definition lookup_cell {T : Type} (t : Rws.Table.t T) (x y : Z) : option T :=
  if bool_decide (0 <= x /\ 0 <= y)
  then Rws.Table.table t !! Z.to_nat y ≫= fun row => row !! Z.to_nat x
  else None.

(** The calls that change a map, and what they do to its entries. *)
Module MapOp.
Inductive t (K U : Type) : Type :=
| Set_ (key : K) (val : U)
| Delete (key : K)
| Reset.
Arguments Set_ {K U} key val.
Arguments Delete {K U} key.
Arguments Reset {K U}.

Section defs.
Context {K U : Type} `{Countable K} `{!Zero U}.

Definition run (sm : ptr (Rws.Map.t K U)) (op : t K U) : ptr (Rws.Map.t K U) :=
  match op with
  | Set_ key val => (Rws.Map.Set_ sm key val).1
  | Delete key => Rws.Map.Delete sm key
  | Reset => Rws.Map.Reset sm
  end.

Definition model (entries : gmap K U) (op : t K U) : gmap K U :=
  match op with
  | Set_ key val => <[key := val]> entries
  | Delete key => delete key entries
  | Reset => ∅
  end.
End defs.
End MapOp.

(** * Package buffer: the Buffer behind a context *)

Module BufferContext.
Section defs.
Context {T : Type} `{!Zero T} (sch : Scheduler).

(** [type Context[T any] struct { buffer *internal.Buffer[T] }], with the
    Buffer given by its place in the heap of the world.  The struct is not
    changed once [NewContext] has built it. *)
Record Context_ : Type := { buffer : ptr nat }.

(** The values found under the key [contextKey{}]: a [*Context[T]], or a
    value of another type, such as a [*Context[U]]. *)
Inductive any : Type :=
| PtrContext (c : ptr Context_)
| OtherValue.

(** The contexts: [context.Background()], and what [context.WithCancel] and
    [context.WithValue] with the key [contextKey{}] make of a parent. *)
Inductive context : Type :=
| Background
| WithCancel (parent : context) (id : nat)
| WithValue (parent : context) (val : any).

(** The world: the cancel functions of [context.WithCancel] called so far,
    the number of such functions made, and the Buffers made so far, each
    with its two loops. *)
Record world : Type := {
  cancelled : list nat;
  cancels : nat;
  heap : list (Relay.t T)
}.

(** Whether the channel [ctx.Done()] is closed. *)
Fixpoint done (ctx : context) (w : world) : bool :=
  match ctx with
  | Background => false
  | WithCancel parent id => bool_decide (id ∈ cancelled w) || done parent w
  | WithValue parent _ => done parent w
  end.

(** [ctx.Value(contextKey{})] *)
Fixpoint Value (ctx : context) : ptr any :=
  match ctx with
  | Background => None
  | WithCancel parent _ => Value parent
  | WithValue _ val => Some val
  end.

Definition fromContext (ctx : ptr context) : ptr Context_ * option common_error :=
  match ctx with
  | None => (None, Some (ErrNilParam "ctx"))
  | Some c =>
      match Value c with
      | Some (PtrContext (Some v)) => (Some v, None)
      | _ =>
          (None,
           Some (errorString "expected non-nil *Context[T] in context"))
      end
  end.

(** The function [NewContext] returns beside the context:
    [func() { cancel(); c.buffer.Close() }], given by the cancel function it
    calls and the Buffer it closes. *)
Record CancelFunc : Type := {
  cancel : nat;
  closes : ptr nat
}.

(** [context.WithCancel] panics on a nil parent. *)
Definition NewContext (parent : ptr context) (w : world)
  : outcome (world * (context * CancelFunc)) :=
  match parent with
  | None => Panics
  | Some p =>
      let id := cancels w in
      match fromContext (Some p) with
      | (Some pc, None) =>
          Returns ({| cancelled := cancelled w; cancels := S id;
                      heap := heap w |},
                   (WithValue p (PtrContext (Some {| buffer := buffer pc |})),
                    {| cancel := id; closes := buffer pc |}))
      | _ =>
          match (Buffer.Start sch (Some (Buffer.new (T := T)))).1.2 with
          | Some _ => Panics
          | None =>
              let b := length (heap w) in
              Returns ({| cancelled := cancelled w; cancels := S id;
                          heap := heap w ++ [Relay.init sch] |},
                       (WithValue p (PtrContext (Some {| buffer := Some b |})),
                        {| cancel := id; closes := Some b |}))
          end
      end
  end.

End defs.
Arguments world : clear implicits.
End BufferContext.

Global Instance BufferContext_is_Context {T : Type} :
  context_Context BufferContext.context (BufferContext.world T) := {|
  Done := BufferContext.done;
  Err ctx w := if BufferContext.done ctx w then Some Canceled else None
|}.

Module BufferAction.
Section defs.
Context {T : Type} `{!Zero T} (sch : Scheduler).

(** What an action does to the Buffer of its context. *)
Definition on_buffer (ctx : BufferContext.context)
    (w : BufferContext.world T)
    (f : BufferContext.world T -> ptr (nat * Relay.t T)
         -> outcome (BufferContext.world T * option common_error))
  : outcome (BufferContext.world T * option common_error) :=
  match BufferContext.fromContext (Some ctx) with
  | (Some c, None) =>
      match BufferContext.buffer c with
      | None => f w None
      | Some b =>
          match BufferContext.heap w !! b with
          | None => Panics
          | Some st => f w (Some (b, st))
          end
      end
  | (_, err) => Returns (w, err)
  end.

Definition set_buffer (w : BufferContext.world T) (b : nat) (st : Relay.t T)
  : BufferContext.world T :=
  {| BufferContext.cancelled := BufferContext.cancelled w;
     BufferContext.cancels := BufferContext.cancels w;
     BufferContext.heap := <[b := st]> (BufferContext.heap w) |}.

(** [resetAct.Run] *)
Definition Reset : ptr (Common.Action BufferContext.context
                          (BufferContext.world T)) :=
  Some (fun ctx w =>
    on_buffer ctx w (fun w buf =>
      match buf with
      | None => Returns (w, None)
      | Some (b, st) =>
          match Relay.step sch st Relay.Reset with
          | Returns st' => Returns (set_buffer w b st', None)
          | Blocks => Blocks
          | Panics => Panics
          end
      end)).

(** [sendAct.Run]: the send is taken when the inbound loop is there. *)
Definition Send (msg : T) : ptr (Common.Action BufferContext.context
                                   (BufferContext.world T)) :=
  Some (fun ctx w =>
    on_buffer ctx w (fun w buf =>
      match buf with
      | None => Returns (w, Some (ErrOf ErrNilReceiver))
      | Some (b, st) =>
          match Buffer.Send (Some (Relay.buf st)) msg
                  (if Relay.inbound_alive st then Buffer.Taken
                   else Buffer.NeverTaken),
                Relay.step sch st (Relay.Send msg) with
          | Returns err, Returns st' =>
              Returns (set_buffer w b st', ErrOf <$> err)
          | Blocks, _ => Blocks
          | _, _ => Panics
          end
      end)).
End defs.
End BufferAction.

(** ** A table and a world used in the statements *)

Definition small_table : Rws.Table.t Z :=
  {| Rws.Table.table := [[1; 2]; [3; 4]];
     Rws.Table.width := 2; Rws.Table.height := 2 |}.

(** No context was cancelled and no Buffer made yet. *)
Definition empty_world : BufferContext.world Z :=
  {| BufferContext.cancelled := []; BufferContext.cancels := 0;
     BufferContext.heap := [] |}.

(** The world after the first cancel function was called. *)
Definition cancelled_world : BufferContext.world Z :=
  {| BufferContext.cancelled := [0%nat]; BufferContext.cancels := 1;
     BufferContext.heap := [] |}.

(** * Properties *)

(** ** Arithmetic on [int] and [errors.Join] *)

Lemma int_wrap_small (z : Z) : - 2 ^ 63 <= z < 2 ^ 63 -> int_wrap z = z.
Proof.
  intros Hz. unfold int_wrap.
  rewrite Z.mod_small by lia. lia.
Qed.

Lemma int_wrap_add (a b : Z) : int_wrap (int_wrap a + b) = int_wrap (a + b).
Proof.
  unfold int_wrap. f_equal.
  replace ((a + 2 ^ 63) mod 2 ^ 64 - 2 ^ 63 + b + 2 ^ 63)
    with ((a + 2 ^ 63) mod 2 ^ 64 + b) by lia.
  rewrite Zplus_mod_idemp_l. f_equal. lia.
Qed.

Lemma int_wrap_0 : int_wrap 0 = 0.
Proof. reflexivity. Qed.

Lemma errors_Join_None (errs : list (option error)) :
  errors_Join errs = None <-> Forall (fun e => e = None) errs.
Proof.
  unfold errors_Join. split.
  - intros H. induction errs as [|[e|] errs IH]; simpl in *.
    + constructor.
    + discriminate.
    + constructor; [done|]. apply IH, H.
  - intros H. induction H as [|e errs He _ IH]; [done|].
    subst e. simpl. exact IH.
Qed.

Lemma errors_Join_Some (errs : list (option error)) (e : error) :
  errors_Join errs = Some e -> e = joinError (omap id errs) /\ omap id errs <> [].
Proof.
  unfold errors_Join. destruct (omap id errs) eqn:E; [discriminate|].
  intros [= <-]. done.
Qed.

Lemma omap_id_fmap {A B : Type} (f : A -> option B) (l : list A) :
  omap id (f <$> l) = omap f l.
Proof.
  induction l as [|x l IH]; [done|].
  cbn. destruct (f x); cbn; by rewrite <- IH.
Qed.

(** ** Subject *)

Section subject_facts.
Context {T W : Type} `{!Zero T} (sch : Scheduler).
Implicit Types (obs : list (Observer.t T W)) (st : T) (w : W).

Lemma run_goroutines_errs sched obs st w errs :
  omap id (Subject.run_goroutines sched obs st w errs).2
  = omap id errs ++ omap snd (Subject.notify_log sched obs st w).
Proof.
  revert w errs. induction sched as [|i rest IH]; intros w errs; simpl.
  - by rewrite app_nil_r.
  - destruct (obs !! i) as [o|]; [|apply IH].
    destruct (Observer.Notify o st w) as [w' [e|]]; simpl.
    + rewrite IH, omap_app. simpl. by rewrite <- app_assoc.
    + apply IH.
Qed.

Lemma notify_log_indices sched obs st w :
  Forall (fun i => (i < length obs)%nat) sched ->
  (Subject.notify_log sched obs st w).*1 = sched.
Proof.
  revert w. induction sched as [|i rest IH]; intros w Hall; [done|].
  apply Forall_cons in Hall as [Hi Hall]. simpl.
  destruct (lookup_lt_is_Some_2 obs i Hi) as [o ->].
  destruct (Observer.Notify o st w) as [w' e]. simpl.
  by rewrite IH.
Qed.

Lemma notify_log_calls sched obs st w :
  Forall (fun c => exists o w', obs !! c.1 = Some o
                     /\ (Observer.Notify o st w').2 = c.2)
         (Subject.notify_log sched obs st w).
Proof.
  revert w. induction sched as [|i rest IH]; intros w; simpl; [constructor|].
  destruct (obs !! i) as [o|] eqn:Ho; [|apply IH].
  destruct (Observer.Notify o st w) as [w' e] eqn:Hn.
  constructor; [|apply IH].
  exists o, w. simpl. by rewrite Hn.
Qed.

Lemma order_in_range n : Forall (fun i => (i < n)%nat) (order sch n).
Proof.
  apply Forall_forall. intros i Hi.
  rewrite (order_perm sch n) in Hi.
  apply elem_of_seq in Hi. lia.
Qed.

Lemma NotifyAll_err (s0 : Subject.t T W) w :
  (Subject.NotifyAll sch (Some s0) w).2
  = errors_Join
      (Subject.notify_log (order sch (length (Subject.observers s0)))
         (Subject.observers s0) (Subject.state s0) w).*2.
Proof.
  unfold Subject.NotifyAll.
  pose proof (run_goroutines_errs
                (order sch (length (Subject.observers s0)))
                (Subject.observers s0) (Subject.state s0) w []) as H.
  destruct (Subject.run_goroutines _ _ _ _ _) as [w' errs]. simpl in *.
  unfold errors_Join. rewrite H.
  by rewrite omap_id_fmap.
Qed.
End subject_facts.

Section subject_claims.
Context {T W : Type} `{!Zero T} (sch : Scheduler).

Lemma NotifyAll_from_observers (s0 : Subject.t T W) (w : W) (e : error) :
  (Subject.NotifyAll sch (Some s0) w).2 = Some e -> from_observers s0 e.
Proof.
  rewrite NotifyAll_err. intros [-> Hne]%errors_Join_Some.
  exists (omap id
    (Subject.notify_log (order sch (length (Subject.observers s0)))
       (Subject.observers s0) (Subject.state s0) w).*2).
  split_and!; [done..|].
  intros x Hx. rewrite omap_id_fmap in Hx.
  apply list_elem_of_omap in Hx as ([i r] & Hin & Hr). simpl in Hr. subst r.
  pose proof (notify_log_calls
                (order sch (length (Subject.observers s0)))
                (Subject.observers s0) (Subject.state s0) w) as Hall.
  rewrite Forall_forall in Hall.
  destruct (Hall _ Hin) as (o & w' & Ho & Hcall). simpl in *.
  exists o, (Subject.state s0), w'. split; [|done].
  by eapply list_elem_of_lookup_2.
Qed.

(** [Notify], [Set] and [Edit] on a live Subject write the state and
    return what [NotifyAll] returns. *)
Lemma Notify_err (s0 : Subject.t T W) (v : T) (w : W) :
  (Subject.Notify sch (Some s0) v w).2
  = (Subject.NotifyAll sch
       (Some {| Subject.state := v;
                Subject.observers := Subject.observers s0 |}) w).2.
Proof. unfold Subject.Notify. by destruct (Subject.NotifyAll sch _ w). Qed.

Lemma Set_err (s0 : Subject.t T W) (v : T) (w : W) :
  (Subject.Set_ sch (Some s0) v w).2
  = (Subject.NotifyAll sch
       (Some {| Subject.state := v;
                Subject.observers := Subject.observers s0 |}) w).2.
Proof. unfold Subject.Set_. by destruct (Subject.NotifyAll sch _ w). Qed.

Lemma Edit_err (s0 : Subject.t T W) (fn : T -> T) (w : W) :
  (Subject.Edit sch (Some s0) (Some fn) w).2
  = (Subject.NotifyAll sch
       (Some {| Subject.state := fn (Subject.state s0);
                Subject.observers := Subject.observers s0 |}) w).2.
Proof. unfold Subject.Edit. by destruct (Subject.NotifyAll sch _ w). Qed.

(** C6.  For a live Subject with [n] observers, [NotifyAll] calls the
    [Notify] of every attached observer exactly once, whatever the others
    return (the calls made are those of the observers [0 .. n-1], in the
    order of the scheduler); it returns nil exactly when every one of these
    calls returned nil, and otherwise the [errors.Join] of exactly the
    non-nil errors these calls returned. *)
Theorem NotifyAll_runs_every_observer_and_joins
    (s0 : Subject.t T W) (w : W) :
  let obs := Subject.observers s0 in
  let log := Subject.notify_log (order sch (length obs)) obs
               (Subject.state s0) w in
  let err := (Subject.NotifyAll sch (Some s0) w).2 in
  log.*1 ≡ₚ seq 0 (length obs)
  /\ Forall (fun c => exists o w', obs !! c.1 = Some o
                       /\ (Observer.Notify o (Subject.state s0) w').2 = c.2) log
  /\ (err = None <-> Forall (fun c => c.2 = None) log)
  /\ (err <> None -> err = Some (joinError (omap snd log))).
Proof.
  intros obs log err. split_and!.
  - unfold log. rewrite notify_log_indices by apply order_in_range.
    apply order_perm.
  - apply notify_log_calls.
  - unfold err. rewrite NotifyAll_err. fold obs. fold log.
    rewrite errors_Join_None, Forall_fmap. done.
  - unfold err. rewrite NotifyAll_err. fold obs. fold log.
    destruct (errors_Join log.*2) as [e|] eqn:E; [|done].
    intros _. apply errors_Join_Some in E as [-> _].
    by rewrite omap_id_fmap.
Qed.

(** C10.  [Notify] and [Set] are the same function: on every Subject, nil
    included, and every value they return the same error and leave the
    Subject and the world of its observers in the same state.  Hence a
    Subject attached as an observer treats a notification as a [Set]. *)
Theorem Notify_is_Set (s : ptr (Subject.t T W)) (v : T) (w : W) :
  Subject.Notify sch s v w = Subject.Set_ sch s v w
  /\ Observer.Notify (Subject.as_observer sch) v (s, w)
     = (let '(s', w', err) := Subject.Set_ sch s v w in ((s', w'), err)).
Proof. split; reflexivity. Qed.

(** C5, as amended.  On a nil Subject a call returns the nil-receiver
    error exactly when it reaches the receiver check: [Notify], [Set],
    [Get], [NotifyAll] always, [Edit] and [Attach] for a non-nil argument
    ([Edit(nil)] and [Attach(nil)] return nil; [MustGet], [Cleanup] and
    [Copy] have no error result).  And every error any call returns is
    either the nil-receiver error, on a nil Subject, or comes from the
    observers. *)
Theorem Subject_errors (op : SubjectOp.t T W) (w : W) :
  SubjectOp.error_of sch op None w
    = (if SubjectOp.checks_receiver op then Some ErrNilReceiver else None)
  /\ forall s e, SubjectOp.error_of sch op s w = Some e ->
       (s = None /\ e = ErrNilReceiver)
       \/ (exists s0, s = Some s0 /\ from_observers s0 e).
Proof.
  split.
  - destruct op as [| | | | |[fn|]|[o|]| |]; reflexivity.
  - intros s e.
    destruct op as [change| |value| | |[fn|]|[o|]| |], s as [s0|];
      cbn [SubjectOp.error_of]; try discriminate;
      try (intros [= <-]; by left);
      rewrite ?Notify_err, ?Set_err, ?Edit_err;
      intros H; right; exists s0; (split; [done|]);
      by apply NotifyAll_from_observers in H.
Qed.
End subject_claims.

Lemma Subject_errors_witness :
  SubjectOp.error_of in_order (SubjectOp.Set_ 1) (Some two_observers) tt
    = Some (joinError [ErrClient "boom"])
  /\ ((Some two_observers = None /\ joinError [ErrClient "boom"] = ErrNilReceiver)
      \/ exists s0, Some two_observers = Some s0
                    /\ from_observers s0 (joinError [ErrClient "boom"])).
Proof.
  split; [reflexivity|].
  apply (proj2 (Subject_errors in_order (SubjectOp.Set_ 1) tt)).
  reflexivity.
Defined.

(** C5, as stated, fails: [Edit] with a nil function and [Attach] with a nil
    observer return nil on a nil Subject. *)
Lemma Edit_nil_on_nil_Subject_returns_nil :
  (Subject.Edit in_order (None : ptr (Subject.t Z unit)) None tt).2 = None
  /\ (Subject.Attach (None : ptr (Subject.t Z unit)) None).2 = None
  /\ ~ (forall op : SubjectOp.t Z unit,
          SubjectOp.error_of in_order op None tt = Some ErrNilReceiver).
Proof.
  split_and!; [reflexivity..|].
  intros H. specialize (H (SubjectOp.Edit None)). discriminate H.
Defined.

Lemma NotifyAll_runs_every_observer_and_joins_witness :
  (Subject.NotifyAll in_reverse (Some two_observers) tt).2 <> None
  /\ (Subject.NotifyAll in_reverse (Some two_observers) tt).2
     = Some (joinError [ErrClient "boom"]).
Proof.
  split; [discriminate|].
  apply (proj2 (proj2 (proj2
    (NotifyAll_runs_every_observer_and_joins in_reverse two_observers tt)))).
  discriminate.
Defined.

(** ** Locker *)


Lemma hasFalse_true (l : Locker.t) :
  (Locker.hasFalse l).2 = true <-> exists k, snapshot l !! k = Some false.
Proof.
  unfold Locker.hasFalse. simpl. fold (snapshot l).
  rewrite existsb_exists. split.
  - intros ([k b] & Hin & Hb). exists k.
    apply list_elem_of_In, elem_of_map_to_list in Hin.
    simpl in Hb. by destruct b.
  - intros (k & Hk). exists (k, false). split; [|done].
    by apply list_elem_of_In, elem_of_map_to_list.
Qed.

Lemma hasFalse_false (l : Locker.t) :
  (Locker.hasFalse l).2 = false <-> all_true l.
Proof.
  rewrite <- not_true_iff_false, hasFalse_true. unfold all_true. split.
  - intros Hno k [|] Hk; [done|]. destruct Hno. by exists k.
  - intros Hall (k & Hk). by apply Hall in Hk.
Qed.

Lemma wait_loop_unfold (wakes : list Locker.t) (cur : Locker.t) :
  Locker.wait_loop wakes cur
  = if (Locker.hasFalse cur).2 then Returns (snapshot cur)
    else match wakes with
         | [] => Blocks
         | woken :: rest => Locker.wait_loop rest woken
         end.
Proof. destruct wakes; reflexivity. Qed.

Lemma wait_loop_spec (wakes : list Locker.t) (cur : Locker.t) :
  match Locker.wait_loop wakes cur with
  | Returns m =>
      exists seen l later,
        cur :: wakes = seen ++ l :: later /\ Forall all_true seen
        /\ (exists k, snapshot l !! k = Some false) /\ m = snapshot l
  | Blocks => Forall all_true (cur :: wakes)
  | Panics => False
  end.
Proof.
  revert cur. induction wakes as [|woken rest IH]; intros cur;
    rewrite wait_loop_unfold;
    destruct (Locker.hasFalse cur).2 eqn:E.
  - exists [], cur, []. split; [done|]. split; [constructor|].
    split; [|done]. by apply hasFalse_true.
  - constructor; [|constructor]. by apply hasFalse_false.
  - exists [], cur, (woken :: rest). split; [done|]. split; [constructor|].
    split; [|done]. by apply hasFalse_true.
  - apply hasFalse_false in E. specialize (IH woken).
    destruct (Locker.wait_loop rest woken) as [m| |]; [| |done].
    + destruct IH as (seen & l & later & Heq & Hseen & Hk & ->).
      exists (cur :: seen), l, later. rewrite Heq.
      split; [done|]. split; [by constructor|]. by split.
    + by constructor.
Qed.

(** C1, as amended.  [DoFunc] waits while every registered condition is
    true and goes on at the first moment (on entry or at a wake-up) at which
    at least one registered condition is false: it then calls [f] once, with
    the snapshot of that moment, in which some key maps to false, and returns
    what [f] returns.  While all conditions are true at every moment it sees,
    it blocks and does not call [f].  On a nil Locker it returns the
    nil-receiver error without calling [f]. *)
Theorem DoFunc_goes_on_when_a_condition_is_false {W : Type}
    (cur : Locker.t) (wakes : list Locker.t)
    (f : gmap Z bool -> W -> W * option error) (w : W) :
  match Locker.DoFunc (Some cur) wakes f w with
  | Returns r =>
      exists seen l later,
        cur :: wakes = seen ++ l :: later /\ Forall all_true seen
        /\ (exists k, snapshot l !! k = Some false)
        /\ r = f (snapshot l) w
  | Blocks => Forall all_true (cur :: wakes)
  | Panics => False
  end
  /\ Locker.DoFunc None wakes f w = Returns (w, Some ErrNilReceiver).
Proof.
  split; [|reflexivity].
  unfold Locker.DoFunc. pose proof (wait_loop_spec wakes cur) as H.
  destruct (Locker.wait_loop wakes cur) as [m| |]; [|done..].
  destruct H as (seen & l & later & Heq & Hseen & Hk & ->).
  by exists seen, l, later.
Qed.

(** C1, as stated, fails: with a false condition [DoFunc] does not wait and
    calls [f] with a snapshot in which that condition is false; with all
    conditions true it blocks. *)
Lemma DoFunc_calls_f_with_a_false_condition :
  (exists m, Locker.DoFunc (Some locker_with_false) [] record_call []
             = Returns ([m], None)
             /\ m !! Buffer.IsEmpty = Some false)
  /\ Locker.DoFunc (Some locker_all_true) [locker_all_true] record_call []
     = Blocks.
Proof.
  split; [|reflexivity].
  exists (snapshot locker_with_false). split; reflexivity.
Defined.

(** ** Queue: the heap of nodes *)

Section queue_heap.
Context {T : Type}.
Implicit Types (heap : list (Queue.queue_node T)) (cells : list (nat * T)).

Lemma linked_in_heap heap cells a :
  linked heap cells -> a ∈ cells.*1 -> (a < length heap)%nat.
Proof.
  induction cells as [|c rest IH]; simpl.
  - intros _ Hin. by apply elem_of_nil in Hin.
  - intros [Hc Hrest] [->|Hin]%elem_of_cons.
    + by eapply lookup_lt_Some.
    + by apply IH.
Qed.

Lemma linked_length heap cells :
  linked heap cells -> NoDup cells.*1 -> (length cells <= length heap)%nat.
Proof.
  intros Hl Hnd.
  assert (cells.*1 ⊆+ seq 0 (length heap)) as Hsub.
  { apply NoDup_submseteq; [done|].
    intros a Ha. apply elem_of_seq.
    pose proof (linked_in_heap heap cells a Hl Ha). lia. }
  apply submseteq_length in Hsub.
  by rewrite length_fmap, length_seq in Hsub.
Qed.

(** Linking a fresh node after the last one. *)
Lemma linked_snoc heap cells b vb v :
  linked heap cells -> NoDup cells.*1 -> last cells = Some (b, vb) ->
  linked (alter (Queue.set_next (Some (length heap))) b
            (heap ++ [{| Queue.value := v; Queue.next := None |}]))
         (cells ++ [(length heap, v)]).
Proof.
  induction cells as [|c rest IH]; [done|].
  intros [Hc Hrest] Hnd Hlast.
  apply NoDup_cons in Hnd as [Hfresh Hnd].
  pose proof (lookup_lt_Some _ _ _ Hc) as Hlt.
  destruct rest as [|c' rest'].
  - injection Hlast as ->. simpl in *. split; [|split; [|done]].
    + rewrite list_lookup_alter_eq, lookup_app_l, Hc by done. done.
    + rewrite list_lookup_alter_ne by lia.
      by rewrite list_lookup_middle.
  - rewrite last_cons_cons in Hlast.
    split; [|by apply IH].
    assert (b ∈ (c' :: rest').*1) as Hb.
    { apply (list_elem_of_fmap_2 fst _ (b, vb)).
      by apply last_Some_elem_of. }
    rewrite list_lookup_alter_ne by (intros ->; done).
    rewrite lookup_app_l by done. exact Hc.
Qed.

Lemma linked_fresh heap v :
  linked (heap ++ [{| Queue.value := v; Queue.next := None |}])
         [(length heap, v)].
Proof. split; [|done]. by rewrite list_lookup_middle. Qed.

Lemma linked_last heap cells b v :
  linked heap cells -> last cells = Some (b, v) ->
  heap !! b = Some {| Queue.value := v; Queue.next := None |}.
Proof.
  induction cells as [|c rest IH]; [done|].
  intros [Hc Hrest] Hlast. destruct rest as [|c' rest'].
  - injection Hlast as ->. exact Hc.
  - rewrite last_cons_cons in Hlast. by apply IH.
Qed.

(** The traversal from the first node of a chain reads its values. *)
Lemma walk_linked heap cells fuel :
  linked heap cells -> (length cells <= fuel)%nat ->
  Queue.walk fuel heap (fst <$> head cells) = cells.*2.
Proof.
  revert fuel. induction cells as [|[a v] rest IH]; intros fuel.
  - intros _ _. by destruct fuel.
  - intros [Hc Hrest] Hlen. simpl in Hlen, Hc.
    destruct fuel as [|fuel]; [lia|].
    cbn. rewrite Hc. cbn. f_equal. apply IH; [done|lia].
Qed.
End queue_heap.

(** ** Queue: each call keeps the structural invariant *)

Section queue_calls.
Context {T W : Type} `{!Zero T} (sch : Scheduler).
Implicit Types (q : Queue.t T W) (cells : list (nat * T)) (w : W).

Lemma Edit_live (s0 : Subject.t Z W) (fn : Z -> Z) w :
  exists w' e,
    Subject.Edit sch (Some s0) (Some fn) w
    = (Some {| Subject.state := fn (Subject.state s0);
               Subject.observers := Subject.observers s0 |}, w', e).
Proof.
  unfold Subject.Edit. destruct (Subject.NotifyAll sch _ w) as [w' e].
  by exists w', e.
Qed.

Lemma represents_new : represents (Queue.new : Queue.t T W) [].
Proof. split; try done. constructor. Qed.

Lemma represents_empty q cells :
  represents q cells -> Queue.front q = None -> cells = [].
Proof.
  intros Hr Hf. rewrite (rep_front _ _ Hr) in Hf.
  by destruct cells.
Qed.

Lemma Enqueue_represents q cells v w :
  represents q cells ->
  exists q' w',
    Queue.Enqueue sch (Some q) v w = (Some q', w', None)
    /\ represents q' (cells ++ [(length (Queue.nodes q), v)])
    /\ exists e,
        Subject.Edit sch (Some (default Subject.new (Queue.size q)))
          (Some (fun size => int_wrap (size + 1))) w
        = (Queue.size q', w', e).
Proof.
  intros [Hl Hf Hb Hnd Hsz Hlive]. unfold Queue.Enqueue.
  set (s0 := default Subject.new (Queue.size q)).
  assert (Subject.state s0 = int_wrap (Z.of_nat (length cells))) as Hs0.
  { unfold s0. by destruct (Queue.size q). }
  replace (match Queue.size q with
           | Some s => Some s
           | None => Some Subject.new
           end) with (Some s0) by (unfold s0; by destruct (Queue.size q)).
  destruct (Edit_live s0 (fun size => int_wrap (size + 1)) w)
    as (w' & e & HE). rewrite HE.
  assert (forall a, a ∈ cells.*1 -> (a < length (Queue.nodes q))%nat) as Hin
    by (intros a; by apply linked_in_heap).
  assert (NoDup (cells ++ [(length (Queue.nodes q), v)]).*1) as Hnd'.
  { rewrite fmap_app. apply NoDup_app. split; [done|]. split.
    - intros a Ha [->|[]%elem_of_nil]%elem_of_cons.
      apply Hin in Ha. simpl in Ha. lia.
    - apply NoDup_singleton. }
  assert (int_wrap (Subject.state s0 + 1)
          = int_wrap (Z.of_nat (length (cells ++ [(length (Queue.nodes q), v)]))))
    as Hsz'.
  { rewrite Hs0, int_wrap_add, length_app. simpl. f_equal. lia. }
  destruct (last cells) as [[b vb]|] eqn:Hlast.
  - rewrite Hb. simpl. eexists _, _. split; [done|].
    split; [|by exists e].
    split; simpl; try done.
    + by eapply linked_snoc.
    + rewrite Hf. destruct cells; [done|]. done.
    + by rewrite last_snoc.
  - apply last_None in Hlast. subst cells.
    rewrite Hb. simpl. eexists _, _. split; [done|].
    split; [|by exists e].
    split; simpl; try done.
    by apply linked_fresh.
Qed.

Lemma Dequeue_represents q c rest w :
  represents q (c :: rest) ->
  exists q' w',
    Queue.Dequeue sch (Some q) w = Returns (Some q', w', (c.2, None))
    /\ represents q' rest
    /\ exists e,
        Subject.Edit sch (Queue.size q)
          (Some (fun size => int_wrap (size - 1))) w
        = (Queue.size q', w', e).
Proof.
  intros [[Hc Hl] Hf Hb Hnd Hsz Hlive]. unfold Queue.Dequeue.
  rewrite Hf. cbn -[Subject.Edit]. rewrite Hc.
  destruct Hlive as [s0 Hs0]; [done|].
  rewrite Hs0 in Hsz |- *. cbn -[Subject.Edit int_wrap] in Hsz |- *.
  destruct (Edit_live s0 (fun size => int_wrap (size - 1)) w)
    as (w' & e & HE). rewrite HE.
  apply NoDup_cons in Hnd as [_ Hnd].
  assert (int_wrap (Subject.state s0 - 1)
          = int_wrap (Z.of_nat (length rest))) as Hsz'.
  { rewrite Hsz. unfold Z.sub.
    rewrite int_wrap_add. f_equal. lia. }
  destruct rest as [|c' rest']; simpl.
  - eexists _, _. split; [done|]. split; [|by exists e].
    split; simpl; try done.
  - eexists _, _. split; [done|]. split; [|by exists e].
    split; simpl; done.
Qed.

Lemma Dequeue_empty q w :
  represents q [] ->
  Queue.Dequeue sch (Some q) w
  = Returns (Some q, w, (zero, Some ErrEmptyQueue)).
Proof. intros Hr. unfold Queue.Dequeue. by rewrite (rep_front _ _ Hr). Qed.

Lemma Reset_represents q cells :
  represents q cells ->
  exists q', Queue.Reset (Some q) = Some q' /\ represents q' [].
Proof.
  intros Hr. unfold Queue.Reset.
  destruct (Queue.front q) eqn:Hf.
  - eexists. split; [done|]. split; simpl; try done. constructor.
  - exists q. split; [done|].
    by rewrite <- (represents_empty q cells Hr Hf).
Qed.

Lemma ObserveSize_represents q cells fn :
  represents q cells ->
  exists q', (Queue.ObserveSize (Some q) fn).1 = Some q'
             /\ represents q' cells.
Proof.
  intros [Hl Hf Hb Hnd Hsz Hlive]. destruct fn as [fn|]; simpl.
  - destruct (Queue.size q) as [s0|] eqn:Es; simpl in *;
      (eexists; split; [done|]); split; simpl; by eauto.
  - by exists q.
Qed.

Lemma enqueue_each_represents vs q cells w :
  represents q cells ->
  exists q' w' cells',
    QueueOp.enqueue_each sch vs (Some q, w) = (Some q', w')
    /\ represents q' cells' /\ cells'.*2 = cells.*2 ++ vs.
Proof.
  revert q cells w. induction vs as [|v vs IH]; intros q cells w Hr.
  - exists q, w, cells. by rewrite app_nil_r.
  - destruct (Enqueue_represents q cells v w Hr) as (q1 & w1 & E & Hr1 & _).
    destruct (IH q1 _ w1 Hr1) as (q' & w' & cells' & E' & Hr' & Hv).
    exists q', w', cells'. split; [|split; [done|]].
    + unfold QueueOp.enqueue_each in *. cbn [foldl]. by rewrite E.
    + rewrite Hv, fmap_app. simpl. by rewrite <- app_assoc.
Qed.

Lemma EnqueueMany_each q vs w :
  Queue.EnqueueMany sch (Some q) vs w
  = (let '(queue', w') := QueueOp.enqueue_each sch vs (Some q, w) in
     (queue', w', None)).
Proof. by destruct vs. Qed.

Lemma run_represents op q cells w :
  represents q cells ->
  exists q' w' cells',
    QueueOp.run sch op (Some q, w) = Returns (Some q', w')
    /\ represents q' cells' /\ cells'.*2 = QueueOp.model cells.*2 op.
Proof.
  intros Hr. destruct op as [v|vs| | |fn]; cbn [QueueOp.run QueueOp.model].
  - destruct (Enqueue_represents q cells v w Hr) as (q' & w' & -> & Hr' & _).
    eexists q', w', _. split; [done|]. split; [done|]. by rewrite fmap_app.
  - rewrite EnqueueMany_each.
    destruct (enqueue_each_represents vs q cells w Hr)
      as (q' & w' & cells' & -> & Hr' & Hv).
    by exists q', w', cells'.
  - destruct cells as [|c rest].
    + rewrite (Dequeue_empty q w Hr). by exists q, w, [].
    + destruct (Dequeue_represents q c rest w Hr) as (q' & w' & -> & Hr' & _).
      by exists q', w', rest.
  - destruct (Reset_represents q cells Hr) as (q' & -> & Hr').
    by exists q', w, [].
  - destruct (ObserveSize_represents q cells fn Hr) as (q' & -> & Hr').
    by exists q', w, cells.
Qed.

Lemma run_all_represents ops q cells w :
  represents q cells ->
  exists q' w' cells',
    QueueOp.run_all sch ops (Some q, w) = Returns (Some q', w')
    /\ represents q' cells'
    /\ cells'.*2 = foldl QueueOp.model cells.*2 ops.
Proof.
  revert q cells w. induction ops as [|op ops IH]; intros q cells w Hr.
  - by exists q, w, cells.
  - destruct (run_represents op q cells w Hr)
      as (q1 & w1 & cells1 & E & Hr1 & Hv1).
    destruct (IH q1 cells1 w1 Hr1) as (q' & w' & cells' & E' & Hr' & Hv').
    exists q', w', cells'. cbn [QueueOp.run_all foldl]. rewrite E, <- Hv1. done.
Qed.

Lemma dequeue_n_represents q cells w :
  represents q cells ->
  exists q' w',
    QueueOp.dequeue_n sch (length cells) (Some q, w)
    = Returns (Some q', w', (fun v => (v, None)) <$> cells.*2)
    /\ represents q' [].
Proof.
  revert q w. induction cells as [|c rest IH]; intros q w Hr.
  - by exists q, w.
  - destruct (Dequeue_represents q c rest w Hr) as (q1 & w1 & E & Hr1 & _).
    destruct (IH q1 w1 Hr1) as (q' & w' & E' & Hr').
    exists q', w'. split; [|done].
    cbn [QueueOp.dequeue_n fst snd length]. rewrite E, E'. done.
Qed.

Lemma elements_represents q cells :
  represents q cells -> Queue.elements q = cells.*2.
Proof.
  intros Hr. unfold Queue.elements. rewrite (rep_front _ _ Hr).
  apply walk_linked; [apply Hr|].
  apply linked_length; apply Hr.
Qed.
End queue_calls.

(** ** Queue: the claims *)

Section queue_claims.
Context {T W : Type} `{!Zero T} (sch : Scheduler).

(** C9.  After any sequence of calls of [Enqueue], [EnqueueMany],
    [Dequeue], [Reset] and [ObserveSize] on a new queue, every call has
    returned and the queue satisfies its structural invariant: the nodes
    linked from [front] are a chain of distinct nodes holding exactly the
    values a FIFO would hold; [front] is nil exactly when there is no
    element; [back] is nil exactly when there is no element and otherwise
    is the last node of the chain, whose [next] is nil; and the size
    Subject holds the number of elements as an [int], which is that
    number whenever it is below [2^63]. *)
Theorem Queue_structural_invariant (ops : list (QueueOp.t T W)) (w : W) :
  exists q w' cells,
    QueueOp.run_all sch ops (Some Queue.new, w) = Returns (Some q, w')
    /\ represents q cells
    /\ Queue.elements q = cells.*2
    /\ Queue.elements q = foldl QueueOp.model [] ops
    /\ (Queue.front q = None <-> Queue.elements q = [])
    /\ (Queue.back q = None <-> Queue.elements q = [])
    /\ (forall b, Queue.back q = Some b ->
          exists v, last cells = Some (b, v)
                    /\ Queue.nodes q !! b
                       = Some {| Queue.value := v; Queue.next := None |})
    /\ Queue.Size (Some q)
       = int_wrap (Z.of_nat (length (Queue.elements q)))
    /\ (Z.of_nat (length (Queue.elements q)) < 2 ^ 63 ->
        Queue.Size (Some q) = Z.of_nat (length (Queue.elements q))).
Proof.
  destruct (run_all_represents sch ops Queue.new [] w (represents_new))
    as (q & w' & cells & Hrun & Hr & Hv).
  pose proof (elements_represents q cells Hr) as He.
  exists q, w', cells. split; [done|]. split; [done|]. split; [done|].
  split; [by rewrite He, Hv|].
  rewrite He.
  assert (Queue.Size (Some q) = int_wrap (Z.of_nat (length cells.*2))) as Hsz.
  { simpl. rewrite length_fmap. apply Hr. }
  split; [|split; [|split; [|split]]].
  - rewrite (rep_front _ _ Hr). by destruct cells.
  - rewrite (rep_back _ _ Hr). destruct (last cells) eqn:Hl.
    + split; [done|]. intros Hnil. apply fmap_nil_inv in Hnil.
      by subst cells.
    + apply last_None in Hl. by subst cells.
  - intros b Hb. rewrite (rep_back _ _ Hr) in Hb.
    destruct (last cells) as [[b' v]|] eqn:Hl; [|done].
    injection Hb as ->. exists v. split; [done|].
    eapply linked_last; [apply Hr|done].
  - exact Hsz.
  - intros Hlt. rewrite Hsz. apply int_wrap_small. lia.
Qed.

(** C3.  [N] values enqueued in order into a new queue are returned, in
    that order and each with a nil error, by [N] successive calls of
    [Dequeue].  More generally, whatever was done to the queue before,
    enqueuing the values and then dequeuing as many times as the queue has
    elements returns the elements it had, in order, followed by the values
    in order. *)
Theorem Queue_is_fifo (vs : list T) (w : W) :
  (exists q' w',
      QueueOp.dequeue_n sch (length vs)
        (QueueOp.enqueue_each sch vs (Some Queue.new, w))
      = Returns (q', w', (fun v => (v, None)) <$> vs))
  /\ forall ops : list (QueueOp.t T W),
      exists q0 w0,
        QueueOp.run_all sch ops (Some Queue.new, w) = Returns (Some q0, w0)
        /\ exists q' w',
            QueueOp.dequeue_n sch (length (Queue.elements q0) + length vs)
              (QueueOp.enqueue_each sch vs (Some q0, w0))
            = Returns (q', w',
                       (fun v => (v, None)) <$> (Queue.elements q0 ++ vs)).
Proof.
  assert (forall (q0 : Queue.t T W) cells w0,
             represents q0 cells ->
             exists q' w',
               QueueOp.dequeue_n sch (length cells.*2 + length vs)
                 (QueueOp.enqueue_each sch vs (Some q0, w0))
               = Returns (q', w', (fun v => (v, None)) <$> (cells.*2 ++ vs)))
    as Hgen.
  { intros q0 cells w0 Hr.
    destruct (enqueue_each_represents sch vs q0 cells w0 Hr)
      as (q1 & w1 & cells1 & -> & Hr1 & Hv1).
    destruct (dequeue_n_represents sch q1 cells1 w1 Hr1)
      as (q' & w' & E & _).
    exists (Some q'), w'. rewrite <- Hv1, <- length_app, <- Hv1.
    by rewrite length_fmap. }
  split.
  - apply (Hgen Queue.new [] w represents_new).
  - intros ops.
    destruct (run_all_represents sch ops Queue.new [] w (represents_new))
      as (q0 & w0 & cells & Hrun & Hr & _).
    exists q0, w0. split; [done|].
    rewrite (elements_represents q0 cells Hr). by apply Hgen.
Qed.
End queue_claims.

Lemma Queue_structural_invariant_witness :
  exists q : Queue.t Z unit,
    QueueOp.run_all in_order
      [QueueOp.Enqueue 1; QueueOp.Enqueue 2; QueueOp.Dequeue]
      (Some Queue.new, tt) = Returns (Some q, tt)
    /\ Queue.Size (Some q) = 1.
Proof.
  destruct (Queue_structural_invariant in_order
              [QueueOp.Enqueue 1; QueueOp.Enqueue 2; QueueOp.Dequeue] tt)
    as (q & [] & cells & Hrun & _ & _ & He & _ & _ & _ & _ & Hsz).
  exists q. split; [exact Hrun|].
  rewrite Hsz; rewrite He; [reflexivity|simpl; lia].
Defined.

(** ** Buffer *)

Section buffer_claims.
Context {T : Type} `{!Zero T} (sch : Scheduler).

Lemma Peek_represents (q0 : Queue.t T (ptr Locker.t)) cells :
  represents q0 cells ->
  Queue.Peek (Some q0)
  = match cells with
    | [] => Returns (zero, Some ErrEmptyQueue)
    | c :: _ => Returns (c.2, None)
    end.
Proof.
  intros Hr. unfold Queue.Peek. rewrite (rep_front _ _ Hr).
  destruct cells as [|c rest]; [done|].
  destruct (rep_linked _ _ Hr) as [Hc _]. simpl. by rewrite Hc.
Qed.

(** C4.  On a Buffer whose queue satisfies its invariant,
    [sendSingleMessage] does nothing when the queue is empty; otherwise it
    reads the head [v] with [Peek], and when no receiver waits on the
    outbound channel (or the channel is nil) it returns with the Buffer,
    hence the queue and its head, unchanged; only when a receiver waits
    does it remove an element: [v] is handed to the receiver and the queue
    then holds the elements after [v]. *)
Theorem sendSingleMessage_peeks_then_pops
    (b : Buffer.t T) (q0 : Queue.t T (ptr Locker.t)) cells :
  Buffer.q b = Some q0 -> represents q0 cells ->
  match Queue.elements q0 with
  | [] => Buffer.sendSingleMessage sch b = Returns (b, (true, true))
  | v :: rest =>
      Queue.Peek (Some q0) = Returns (v, None)
      /\ (no_receiver (Buffer.receiveFrom b) ->
          Buffer.sendSingleMessage sch b = Returns (b, (false, false)))
      /\ (forall ch n,
            Buffer.receiveFrom b = Some ch -> Buffer.closed ch = false ->
            Buffer.recvq ch = S n ->
            exists q' lk',
              Buffer.sendSingleMessage sch b
              = Returns
                  ({| Buffer.q := Some q'; Buffer.sendTo := Buffer.sendTo b;
                      Buffer.receiveFrom :=
                        Some {| Buffer.closed := false; Buffer.recvq := n;
                                Buffer.delivered :=
                                  Buffer.delivered ch ++ [v] |};
                      Buffer.wg := Buffer.wg b; Buffer.locker := lk' |},
                   (false, true))
              /\ Queue.elements q' = rest
              /\ represents q' (tail cells))
  end.
Proof.
  intros Hq Hr. rewrite (elements_represents q0 cells Hr).
  unfold Buffer.sendSingleMessage. rewrite Hq.
  rewrite (Peek_represents q0 cells Hr).
  destruct cells as [|[a v] rest]; [done|]. cbn [fmap list_fmap snd].
  split; [done|]. split.
  - destruct (Buffer.receiveFrom b) as [ch|]; [|done].
    intros [Hc Hn]. unfold Buffer.try_send. by rewrite Hc, Hn.
  - intros ch n -> Hc Hn. unfold Buffer.try_send. rewrite Hc, Hn.
    destruct (Dequeue_represents sch q0 (a, v) rest (Buffer.locker b) Hr)
      as (q' & lk' & -> & Hr' & _).
    exists q', lk'. split; [done|]. split; [|done].
    by apply elements_represents.
Qed.

(** C7.  [Send] returns the nil-receiver error on a nil Buffer and the
    already-closed error exactly when the inbound channel is nil;
    [Receive] returns the nil-receiver error on a nil Buffer and the
    already-closed error exactly when the outbound channel is nil or is
    closed by the time the receive ends; neither returns any other
    error. *)
Theorem Send_Receive_errors (msg : T) (sfate : Buffer.send_fate)
    (rfate : Buffer.recv_fate T) :
  Buffer.Send None msg sfate = Returns (Some ErrNilReceiver)
  /\ (forall b0 : Buffer.t T,
        Buffer.Send (Some b0) msg sfate = Returns (Some ErrAlreadyClosed)
        <-> Buffer.sendTo b0 = None)
  /\ (forall (b : ptr (Buffer.t T)) e,
        Buffer.Send b msg sfate = Returns (Some e) ->
        (b = None /\ e = ErrNilReceiver)
        \/ (e = ErrAlreadyClosed
            /\ exists b0, b = Some b0 /\ Buffer.sendTo b0 = None))
  /\ Buffer.Receive (None : ptr (Buffer.t T)) rfate
     = Returns (zero, Some ErrNilReceiver)
  /\ (forall b0 : Buffer.t T,
        (exists v, Buffer.Receive (Some b0) rfate
                   = Returns (v, Some ErrAlreadyClosed))
        <-> outbound_gone b0 rfate)
  /\ (forall (b : ptr (Buffer.t T)) v e,
        Buffer.Receive b rfate = Returns (v, Some e) ->
        (b = None /\ e = ErrNilReceiver)
        \/ (e = ErrAlreadyClosed
            /\ exists b0, b = Some b0 /\ outbound_gone b0 rfate)).
Proof.
  split; [done|]. split; [|split; [|split; [done|split]]].
  - intros b0. unfold Buffer.Send.
    destruct (Buffer.sendTo b0) as [c|]; [|done].
    destruct (Buffer.closed c), sfate; split; intros; discriminate.
  - intros [b0|] e; unfold Buffer.Send; [|intros [= <-]; by left].
    destruct (Buffer.sendTo b0) as [c|] eqn:Hc.
    + destruct (Buffer.closed c), sfate; intros; discriminate.
    + intros [= <-]. right. split; [done|]. by exists b0.
  - intros b0. unfold Buffer.Receive, outbound_gone.
    destruct (Buffer.receiveFrom b0) as [c|]; [|split; [done|by exists zero]].
    destruct (Buffer.closed c).
    + split; [by left|by exists zero].
    + destruct rfate as [m| |].
      * split; [intros [v [=]]|intros [|]; discriminate].
      * split; [by right|by exists zero].
      * split; [intros [v [=]]|intros [|]; discriminate].
  - intros [b0|] v e; unfold Buffer.Receive, outbound_gone;
      [|intros [= <- <-]; by left].
    destruct (Buffer.receiveFrom b0) as [c|] eqn:Hc.
    + destruct (Buffer.closed c) eqn:Hcl.
      * intros [= <- <-]. right. split; [done|]. exists b0.
        rewrite Hc, Hcl. by split; [|left].
      * destruct rfate as [m| |]; intros [=]. subst.
        right. split; [done|]. exists b0. rewrite Hc. by split; [|right].
    + intros [= <- <-]. right. split; [done|]. exists b0. by rewrite Hc.
Qed.

(** C8.  [Start] returns the nil-receiver error on a nil Buffer.  On a
    Buffer that is already started ([locker] is set) it returns nil,
    changes nothing and launches no goroutine; in particular a second
    [Start] right after a first one is such a call, and the two calls
    together launch the two loops once. *)
Theorem Start_is_idempotent (b0 : Buffer.t T) :
  Buffer.Start sch (None : ptr (Buffer.t T)) = (None, Some ErrNilReceiver, [])
  /\ (is_Some (Buffer.locker b0) ->
      Buffer.Start sch (Some b0) = (Some b0, None, []))
  /\ (let '(b1, err1, launched1) := Buffer.Start sch (Some b0) in
      err1 = None
      /\ Buffer.Start sch b1 = (b1, None, [])
      /\ (Buffer.locker b0 = None ->
          launched1 ++ (Buffer.Start sch b1).2
          = [Buffer.go_listenForIncomingMessages;
             Buffer.go_sendMessagesFromBuffer])).
Proof.
  split; [done|]. split.
  - intros [l Hl]. unfold Buffer.Start. by rewrite Hl.
  - unfold Buffer.Start. destruct (Buffer.locker b0) as [l|] eqn:Hl.
    + split; [done|]. split; [by rewrite Hl|done].
    + done.
Qed.
End buffer_claims.

Lemma relaying_queue_represented :
  represents (default Queue.new (Buffer.q relaying)) [(0%nat, 5); (1%nat, 6)].
Proof.
  split; try reflexivity.
  - repeat split.
  - apply NoDup_cons. split; [|apply NoDup_singleton].
    intros Hin. apply list_elem_of_singleton in Hin. discriminate Hin.
  - intros _. eexists. reflexivity.
Defined.

Lemma sendSingleMessage_peeks_then_pops_witness :
  exists q' lk',
    Buffer.sendSingleMessage in_order relaying
    = Returns
        ({| Buffer.q := Some q'; Buffer.sendTo := Buffer.sendTo relaying;
            Buffer.receiveFrom :=
              Some {| Buffer.closed := false; Buffer.recvq := 0;
                      Buffer.delivered := [] ++ [5] |};
            Buffer.wg := Buffer.wg relaying; Buffer.locker := lk' |},
         (false, true))
    /\ Queue.elements q' = [6]
    /\ represents q' [(1%nat, 6)].
Proof.
  destruct (sendSingleMessage_peeks_then_pops in_order relaying
              (default Queue.new (Buffer.q relaying))
              [(0%nat, 5); (1%nat, 6)] eq_refl relaying_queue_represented)
    as (_ & _ & H).
  exact (H (Buffer.park_receiver Buffer.make_chan) O eq_refl eq_refl eq_refl).
Defined.

Lemma Start_is_idempotent_witness :
  is_Some (Buffer.locker started)
  /\ Buffer.Start in_order (Some started) = (Some started, None, []).
Proof.
  assert (is_Some (Buffer.locker started)) as H by (eexists; reflexivity).
  split; [exact H|].
  exact (proj1 (proj2 (Start_is_idempotent in_order started)) H).
Defined.

(** C2 fails on the code.  The condition mirrors the size after [Start] and
    after the inbound loop enqueued a value, but [Reset] drops the size
    Subject together with its observer and tells no one: after it the queue
    is empty and [IsEmpty] is still false, and later calls of [Enqueue] and
    [Dequeue] no longer reach the Locker. *)
Theorem Reset_leaves_IsEmpty_stale :
  IsEmpty_mirrors_size started
  /\ IsEmpty_mirrors_size (Buffer.accept in_order started 5)
  /\ Queue.Size (Buffer.q after_reset) = 0
  /\ Locker.Get (Buffer.locker after_reset) Buffer.IsEmpty = (false, None)
  /\ ~ IsEmpty_mirrors_size after_reset
  /\ (exists b',
        Buffer.sendSingleMessage in_order
          (with_receiver (Buffer.accept in_order after_reset 7))
        = Returns (b', (false, true))
        /\ Queue.Size (Buffer.q b') = 0
        /\ Locker.Get (Buffer.locker b') Buffer.IsEmpty = (false, None)).
Proof.
  split; [reflexivity|]. split; [reflexivity|]. split; [reflexivity|].
  split; [reflexivity|]. split; [intros H; discriminate H|].
  eexists. split; [reflexivity|]. split; reflexivity.
Qed.

(** ** Buffer: [IsEmpty] follows the size as long as [Reset] is not called *)

Section buffer_mirror.
Context {T : Type} `{!Zero T} (sch : Scheduler).

Lemma order_one : order sch 1 = [0%nat].
Proof.
  pose proof (order_perm sch 1) as H. simpl in H.
  by apply Permutation_singleton_r in H.
Qed.

Lemma NotifyAll_single {A W : Type} `{!Zero A}
    (s1 : Subject.t A W) (o : Observer.t A W) (w : W) :
  Subject.observers s1 = [o] ->
  Subject.NotifyAll sch (Some s1) w
  = (let '(w', e) := Observer.Notify o (Subject.state s1) w in
     (w', errors_Join [e])).
Proof.
  intros Ho. unfold Subject.NotifyAll. rewrite Ho. cbn [length].
  rewrite order_one. simpl.
  by destruct (Observer.Notify o (Subject.state s1) w) as [w' [e|]].
Qed.

Lemma ChangeValue_registered (l : Locker.t) sb (key : Z) (v : bool) :
  Locker.subjects l !! key = Some (Some sb) ->
  exists c',
    Locker.ChangeValue sch (Some l) key v
    = (Some {| Locker.cond := c';
               Locker.subjects :=
                 <[key := Some {| Subject.state := v;
                                  Subject.observers := Subject.observers sb |}]>
                   (Locker.subjects l) |}, None).
Proof.
  intros Hk. unfold Locker.ChangeValue. rewrite Hk.
  unfold Subject.Set_.
  destruct (Subject.NotifyAll sch _ (Locker.cond l)) as [c' e].
  by exists c'.
Qed.

Lemma Edit_size_wired (s : Subject.t Z (ptr Locker.t)) (fn : Z -> Z)
    (l : Locker.t) sb :
  Subject.observers s = [reactiveObserver (Buffer.size_observer sch)] ->
  Locker.subjects l !! Buffer.IsEmpty = Some (Some sb) ->
  exists l' sb',
    Subject.Edit sch (Some s) (Some fn) (Some l)
    = (Some {| Subject.state := fn (Subject.state s);
               Subject.observers := Subject.observers s |}, Some l', None)
    /\ Locker.subjects l' !! Buffer.IsEmpty = Some (Some sb')
    /\ Subject.state sb' = bool_decide (fn (Subject.state s) = 0).
Proof.
  intros Ho Hk. unfold Subject.Edit.
  rewrite (NotifyAll_single _ (reactiveObserver (Buffer.size_observer sch)))
    by done.
  cbn [Subject.state Observer.Notify reactiveObserver].
  unfold Buffer.size_observer.
  destruct (ChangeValue_registered l sb Buffer.IsEmpty
              (bool_decide (fn (Subject.state s) = 0)) Hk) as (c' & ->).
  eexists _, _. split; [reflexivity|]. split.
  - cbn [Locker.subjects]. by rewrite lookup_insert_eq.
  - reflexivity.
Qed.

Lemma wired_mirrors (b : Buffer.t T) cells :
  wired sch b cells -> IsEmpty_mirrors_size b.
Proof.
  intros (q0 & s & l & sb & ch & Hq & _ & Hs & _ & Hl & Hk & Hm & _).
  unfold IsEmpty_mirrors_size, Locker.Get, Queue.Size.
  rewrite Hq, Hl, Hk, Hs. simpl. by rewrite Hm.
Qed.

Lemma wired_Start :
  exists b1 : Buffer.t T,
    Buffer.Start sch (Some Buffer.new)
    = (Some b1, None, [Buffer.go_listenForIncomingMessages;
                       Buffer.go_sendMessagesFromBuffer])
    /\ wired sch b1 [].
Proof.
  eexists. split; [reflexivity|].
  eexists _, _, _, _, _. split; [reflexivity|].
  split; [split; try done; constructor|].
  split; [reflexivity|]. split; [reflexivity|]. split; [reflexivity|].
  split; [reflexivity|]. by split.
Qed.

Lemma wired_accept (b : Buffer.t T) cells (msg : T) :
  wired sch b cells ->
  exists cells', wired sch (Buffer.accept sch b msg) cells'
                 /\ cells'.*2 = cells.*2 ++ [msg].
Proof.
  intros (q0 & s & l & sb & ch & Hq & Hr & Hs & Ho & Hl & Hk & Hm & Hch & Hc).
  unfold Buffer.accept. rewrite Hq, Hl.
  destruct (Enqueue_represents sch q0 cells msg (Some l) Hr)
    as (q' & w' & -> & Hr' & e & HE).
  rewrite Hs in HE. cbn [default from_option id] in HE.
  destruct (Edit_size_wired s (fun size => int_wrap (size + 1)) l sb Ho Hk)
    as (l' & sb' & HE' & Hk' & Hm').
  rewrite HE' in HE. injection HE as Hs' <- <-.
  exists (cells ++ [(length (Queue.nodes q0), msg)]).
  split; [|by rewrite fmap_app].
  exists q', {| Subject.state := int_wrap (Subject.state s + 1);
                Subject.observers := Subject.observers s |}, l', sb', ch.
  by rewrite <- Hs'.
Qed.

Lemma wired_with_receiver (b : Buffer.t T) cells :
  wired sch b cells -> wired sch (with_receiver b) cells.
Proof.
  intros (q0 & s & l & sb & ch & Hq & Hr & Hs & Ho & Hl & Hk & Hm & Hch & Hc).
  exists q0, s, l, sb, (Buffer.park_receiver ch).
  unfold with_receiver. simpl. by rewrite Hch.
Qed.

Lemma wired_sendSingleMessage (b : Buffer.t T) cells :
  wired sch b cells ->
  exists b' r cells',
    Buffer.sendSingleMessage sch b = Returns (b', r)
    /\ wired sch b' cells'.
Proof.
  intros Hw.
  pose proof Hw
    as (q0 & s & l & sb & ch & Hq & Hr & Hs & Ho & Hl & Hk & Hm & Hch & Hc).
  unfold Buffer.sendSingleMessage.
  rewrite Hq, (Peek_represents q0 cells Hr).
  destruct cells as [|c rest]; [by exists b, (true, true), []|].
  rewrite Hch. unfold Buffer.try_send. rewrite Hc.
  destruct (Buffer.recvq ch) as [|n] eqn:Hn;
    [by exists b, (false, false), (c :: rest)|].
  rewrite Hl.
  destruct (Dequeue_represents sch q0 c rest (Some l) Hr)
    as (q' & w' & -> & Hr' & e & HE).
  rewrite Hs in HE.
  destruct (Edit_size_wired s (fun size => int_wrap (size - 1)) l sb Ho Hk)
    as (l' & sb' & HE' & Hk' & Hm').
  rewrite HE' in HE. injection HE as Hs' <- <-.
  eexists _, _, rest. split; [done|].
  exists q', {| Subject.state := int_wrap (Subject.state s - 1);
                Subject.observers := Subject.observers s |}, l', sb',
    {| Buffer.closed := false; Buffer.recvq := n;
       Buffer.delivered := Buffer.delivered ch ++ [c.2] |}.
  simpl. by rewrite <- Hs'.
Qed.

(** As long as [Reset] is not called, the condition [IsEmpty] of a started
    Buffer mirrors the size of its queue after every step of the relay. *)
Lemma IsEmpty_mirrors_size_without_Reset (steps : list (relay_step T)) :
  exists b1 l b',
    Buffer.Start sch (Some (Buffer.new : Buffer.t T)) = (Some b1, None, l)
    /\ foldl (relay_run sch) (Returns b1) steps = Returns b'
    /\ IsEmpty_mirrors_size b'.
Proof.
  destruct wired_Start as (b1 & HS & Hw).
  exists b1, [Buffer.go_listenForIncomingMessages;
              Buffer.go_sendMessagesFromBuffer].
  assert (forall b cells, wired sch b cells ->
            exists b' cells', foldl (relay_run sch) (Returns b) steps
                              = Returns b' /\ wired sch b' cells') as Hgen.
  { induction steps as [|st steps' IH]; intros b cells Hb.
    - by exists b, cells.
    - destruct st as [msg| |]; cbn [foldl relay_run].
      + destruct (wired_accept b cells msg Hb) as (cells' & Hb' & _).
        by eapply IH.
      + eapply IH. by apply wired_with_receiver.
      + destruct (wired_sendSingleMessage b cells Hb)
          as (b' & r & cells' & -> & Hb').
        by eapply IH. }
  destruct (Hgen b1 [] Hw) as (b' & cells' & Hrun & Hw').
  exists b'. split; [done|]. split; [done|].
  by eapply wired_mirrors.
Qed.
End buffer_mirror.

Lemma Send_Receive_errors_witness :
  Buffer.sendTo (Buffer.new : Buffer.t Z) = None
  /\ Buffer.Send (Some (Buffer.new : Buffer.t Z)) 1 Buffer.Taken
     = Returns (Some ErrAlreadyClosed).
Proof.
  split; [reflexivity|].
  apply (proj2 (proj1 (proj2
           (Send_Receive_errors 1 Buffer.Taken Buffer.NeverGot)) Buffer.new)).
  reflexivity.
Defined.

(** ** The model at work *)

Example Queue_fifo_three :
  QueueOp.dequeue_n in_order 3
    (QueueOp.enqueue_each in_order [10; 20; 30]
       (Some (Queue.new : Queue.t Z unit), tt))
  = Returns (Some {| Queue.nodes :=
                       [{| Queue.value := 10; Queue.next := Some 1%nat |};
                        {| Queue.value := 20; Queue.next := Some 2%nat |};
                        {| Queue.value := 30; Queue.next := None |}];
                     Queue.front := None; Queue.back := None;
                     Queue.size := Some Subject.new |},
             tt, [(10, None); (20, None); (30, None)]).
Proof. reflexivity. Qed.

Example NotifyAll_joins_in_completion_order :
  let s := {| Subject.state := 0;
              Subject.observers :=
                [failing_observer "a"; quiet_observer; failing_observer "b"] |} in
  Subject.NotifyAll in_order (Some s) tt
  = (tt, Some (joinError [ErrClient "a"; ErrClient "b"]))
  /\ Subject.NotifyAll in_reverse (Some s) tt
     = (tt, Some (joinError [ErrClient "b"; ErrClient "a"])).
Proof. split; reflexivity. Qed.

Example DoFunc_wakes_on_false :
  Locker.DoFunc (Some locker_all_true) [locker_all_true; locker_with_false]
    record_call []
  = Returns ([snapshot locker_with_false], None).
Proof. reflexivity. Qed.

Example Start_then_Start :
  Buffer.Start in_order (Some started) = (Some started, None, [])
  /\ (Buffer.Start in_order (Some (Buffer.new : Buffer.t Z))).2
     = [Buffer.go_listenForIncomingMessages; Buffer.go_sendMessagesFromBuffer].
Proof. split; reflexivity. Qed.

Example relay_keeps_order :
  exists b1 b2,
    Buffer.sendSingleMessage in_order relaying = Returns (b1, (false, true))
    /\ Buffer.sendSingleMessage in_order b1 = Returns (b1, (false, false))
    /\ Buffer.sendSingleMessage in_order (with_receiver b1)
       = Returns (b2, (false, true))
    /\ Buffer.delivered <$> Buffer.receiveFrom b2 = Some [5; 6]
    /\ Buffer.sendSingleMessage in_order (with_receiver b2)
       = Returns (with_receiver b2, (true, true)).
Proof. eexists _, _. repeat split; reflexivity. Qed.


(** * Further properties of the code *)

(** ** Subject: writes, observers, Cleanup and Copy *)

Section subject_more.
Context {T W : Type} `{!Zero T} (sch : Scheduler).

Lemma order_zero : order sch 0 = [].
Proof.
  pose proof (order_perm sch 0) as H. simpl in H.
  by apply Permutation_nil_r in H.
Qed.

Lemma NotifyAll_no_observers (s0 : Subject.t T W) (w : W) :
  Subject.observers s0 = [] -> Subject.NotifyAll sch (Some s0) w = (w, None).
Proof.
  intros Ho. unfold Subject.NotifyAll. rewrite Ho. cbn [length].
  by rewrite order_zero.
Qed.

Lemma write_live (s0 : Subject.t T W) (w : W) (wr : SubjectWrite.t T) :
  exists w',
    SubjectWrite.run sch (Some s0, w) wr
    = (Some {| Subject.state := SubjectWrite.written (Subject.state s0) wr;
               Subject.observers := Subject.observers s0 |}, w').
Proof.
  destruct wr as [change|value|fn]; cbn [SubjectWrite.run SubjectWrite.written];
    unfold Subject.Notify, Subject.Set_, Subject.Edit;
    destruct (Subject.NotifyAll sch _ w) as [w' e]; by exists w'.
Qed.

Lemma write_unobserved (s0 : Subject.t T W) (w : W) (wr : SubjectWrite.t T) :
  Subject.observers s0 = [] ->
  SubjectWrite.run sch (Some s0, w) wr
  = (Some {| Subject.state := SubjectWrite.written (Subject.state s0) wr;
             Subject.observers := [] |}, w).
Proof.
  intros Ho.
  destruct wr as [change|value|fn]; cbn [SubjectWrite.run SubjectWrite.written];
    unfold Subject.Notify, Subject.Set_, Subject.Edit;
    rewrite NotifyAll_no_observers by done; by rewrite Ho.
Qed.

Lemma writes_unobserved (writes : list (SubjectWrite.t T))
    (s0 : Subject.t T W) (w : W) :
  Subject.observers s0 = [] ->
  foldl (SubjectWrite.run sch) (Some s0, w) writes
  = (Some {| Subject.state :=
               foldl SubjectWrite.written (Subject.state s0) writes;
             Subject.observers := [] |}, w).
Proof.
  revert s0. induction writes as [|wr writes IH]; intros s0 Ho.
  - simpl. destruct s0 as [st obs]. simpl in Ho. by subst obs.
  - cbn [foldl]. rewrite write_unobserved by done. by rewrite IH.
Qed.

(** X1.  A write always lands: after any sequence of [Notify], [Set] and
    [Edit] on a live Subject, [Get] returns the state the writes ask for, one
    after the other, with a nil error, and the observers are the same,
    whatever the observers returned along the way. *)
Theorem Subject_writes_land (writes : list (SubjectWrite.t T))
    (s0 : Subject.t T W) (w : W) :
  exists w',
    foldl (SubjectWrite.run sch) (Some s0, w) writes
    = (Some {| Subject.state :=
                 foldl SubjectWrite.written (Subject.state s0) writes;
               Subject.observers := Subject.observers s0 |}, w')
    /\ Subject.Get (foldl (SubjectWrite.run sch) (Some s0, w) writes).1
       = (foldl SubjectWrite.written (Subject.state s0) writes, None).
Proof.
  revert s0 w. induction writes as [|wr writes IH]; intros s0 w.
  - exists w. by destruct s0.
  - destruct (write_live s0 w wr) as (w1 & E). cbn [foldl]. rewrite E.
    destruct (IH {| Subject.state :=
                      SubjectWrite.written (Subject.state s0) wr;
                    Subject.observers := Subject.observers s0 |} w1)
      as (w' & E' & HG).
    exists w'. by rewrite E'.
Qed.

(** X2.  [Attach] keeps what it is given, in order, except nil: attaching
    the observers [os] one after the other to a live Subject leaves its
    state alone and appends the non-nil ones to its observers, and every one
    of these calls returns nil. *)
Theorem Attach_appends_the_non_nil (os : list (option (Observer.t T W)))
    (s0 : Subject.t T W) :
  attach_each (Some s0) os
  = Some {| Subject.state := Subject.state s0;
            Subject.observers := Subject.observers s0 ++ omap id os |}
  /\ forall (o : option (Observer.t T W)) (s' : Subject.t T W),
      (Subject.Attach (Some s') o).2 = None.
Proof.
  split; [|by intros [o|] s'].
  revert s0. induction os as [|[o|] os IH]; intros s0.
  - simpl. rewrite app_nil_r. by destruct s0.
  - unfold attach_each in *. cbn [foldl Subject.Attach fst].
    rewrite IH. cbn [Subject.state Subject.observers omap list_omap id].
    by rewrite <- app_assoc.
  - unfold attach_each in *. cbn [foldl Subject.Attach fst]. by rewrite IH.
Qed.

(** X3.  [Cleanup] releases everything: it calls the [Cleanup] of every
    observer, in the order they were attached, and leaves the zero Subject
    without observers; from then on no write reaches the former observers
    (the world stays as it is) and [Set] returns nil.  On a nil Subject it
    does nothing. *)
Theorem Cleanup_releases_observers (s0 : Subject.t T W) (w : W) :
  Subject.Cleanup (Some s0) w
  = (Some Subject.new,
     foldl (fun w o => Observer.Cleanup o w) w (Subject.observers s0))
  /\ (forall (writes : list (SubjectWrite.t T)) w1,
        (foldl (SubjectWrite.run sch)
           ((Subject.Cleanup (Some s0) w).1, w1) writes).2 = w1)
  /\ (forall v w1,
        (Subject.Set_ sch (Subject.Cleanup (Some s0) w).1 v w1).2 = None)
  /\ Subject.Cleanup (None : ptr (Subject.t T W)) w = (None, w).
Proof.
  assert (Subject.Cleanup (Some s0) w
          = (Some Subject.new,
             foldl (fun w o => Observer.Cleanup o w) w (Subject.observers s0)))
    as E by (unfold Subject.Cleanup; by destruct (Subject.observers s0)).
  split; [done|]. rewrite E. cbn [fst]. split; [|split; [|done]].
  - intros writes w1. by rewrite writes_unobserved.
  - intros v w1. unfold Subject.Set_.
    by rewrite NotifyAll_no_observers.
Qed.

(** X4.  [Copy] is never nil and copies the state only: the copy of a live
    Subject holds its state, the copy of a nil Subject holds the zero value,
    and the copy has no observers, so that writes to the copy return nil and
    reach none of the observers of the original. *)
Theorem Copy_drops_observers (s : ptr (Subject.t T W)) :
  Subject.Copy s
  = Some {| Subject.state := Subject.MustGet s; Subject.observers := [] |}
  /\ forall (writes : list (SubjectWrite.t T)) w,
      foldl (SubjectWrite.run sch) (Subject.Copy s, w) writes
      = (Some {| Subject.state :=
                   foldl SubjectWrite.written (Subject.MustGet s) writes;
                 Subject.observers := [] |}, w).
Proof.
  assert (Subject.Copy s
          = Some {| Subject.state := Subject.MustGet s;
                    Subject.observers := [] |}) as E by (by destruct s).
  split; [done|]. intros writes w. rewrite E.
  by rewrite writes_unobserved.
Qed.
End subject_more.

(** ** Locker: registration, ChangeValue and the gate *)

Section locker_more.
Context (sch : Scheduler).

Lemma snapshot_lookup (l : Locker.t) (key : Z) :
  snapshot l !! key = Subject.MustGet <$> Locker.subjects l !! key.
Proof. unfold snapshot. by rewrite lookup_fmap. Qed.


(** X5.  [SetSubject] registers the condition: afterwards [Get] returns the
    initial value for the key, whether or not the key was registered before,
    the other conditions and the condition variable are as they were, and
    the condition pulses in the mode asked for. *)
Theorem SetSubject_registers (l : Locker.t) (key : Z) (value broadcast : bool) :
  let l1 := Locker.SetSubject l key value broadcast in
  Locker.Get (Some l1) key = (value, None)
  /\ snapshot l1 = <[key := value]> (snapshot l)
  /\ (forall key', key' <> key ->
        Locker.subjects l1 !! key' = Locker.subjects l !! key')
  /\ Locker.cond l1 = Locker.cond l
  /\ registered l1 key broadcast.
Proof.
  intros l1. split; [|split; [|split; [|split]]].
  - unfold Locker.Get, l1, Locker.SetSubject. simpl.
    by rewrite lookup_insert_eq.
  - unfold snapshot, l1, Locker.SetSubject. simpl. by rewrite fmap_insert.
  - intros key' Hne. unfold l1, Locker.SetSubject. simpl.
    by rewrite lookup_insert_ne.
  - done.
  - unfold registered, l1, Locker.SetSubject. simpl.
    eexists _, _. rewrite lookup_insert_eq. split; [done|]. split; [done|].
    intros b c. by destruct broadcast.
Qed.

(** X6.  [ChangeValue] on a registered condition records the value and
    pulses the condition variable exactly once, in the mode of the key and
    even when the value is the one the condition already had; it returns
    nil, the other conditions are untouched and the key stays registered. *)
Theorem ChangeValue_pulses_once (l : Locker.t) (key : Z)
    (value broadcast : bool) :
  registered l key broadcast ->
  exists l',
    Locker.ChangeValue sch (Some l) key value = (Some l', None)
    /\ Locker.Get (Some l') key = (value, None)
    /\ snapshot l' = <[key := value]> (snapshot l)
    /\ Locker.pulses (Locker.cond l')
       = Locker.pulses (Locker.cond l) ++ [pulse_of broadcast]
    /\ (forall key', key' <> key ->
          Locker.subjects l' !! key' = Locker.subjects l !! key')
    /\ registered l' key broadcast.
Proof.
  intros (sb & o & Hk & Ho & Hn). unfold Locker.ChangeValue. rewrite Hk.
  unfold Subject.Set_. rewrite (NotifyAll_single sch _ o) by done.
  cbn [Subject.state]. rewrite Hn. cbn [errors_Join omap list_omap id].
  eexists. split; [done|]. split; [|split; [|split; [done|split]]].
  - unfold Locker.Get. simpl. by rewrite lookup_insert_eq.
  - unfold snapshot. simpl. by rewrite fmap_insert.
  - intros key' Hne. simpl. by rewrite lookup_insert_ne.
  - exists {| Subject.state := value;
              Subject.observers := Subject.observers sb |}, o.
    simpl. by rewrite lookup_insert_eq.
Qed.

(** X7.  A key that was never registered: [ChangeValue] and [Get] fail with
    the key-does-not-exist error and the Locker, its condition variable
    included, is as it was; this is the case of every key of a new Locker.
    On a nil Locker both return the nil-receiver error. *)
Theorem Locker_unknown_key (l : Locker.t) (key : Z) (value : bool) :
  (Locker.subjects l !! key = None ->
   Locker.ChangeValue sch (Some l) key value = (Some l, Some ErrKeyNotExist)
   /\ Locker.Get (Some l) key = (false, Some ErrKeyNotExist))
  /\ Locker.ChangeValue sch (Some Locker.NewLocker) key value
     = (Some Locker.NewLocker, Some ErrKeyNotExist)
  /\ Locker.Get (Some Locker.NewLocker) key = (false, Some ErrKeyNotExist)
  /\ Locker.ChangeValue sch None key value = (None, Some ErrNilReceiver)
  /\ Locker.Get None key = (false, Some ErrNilReceiver).
Proof.
  split; [|done].
  intros Hk. unfold Locker.ChangeValue, Locker.Get. by rewrite Hk.
Qed.

Lemma ChangeValue_snapshot (l : Locker.t) (key : Z) (value : bool) :
  is_Some (snapshot l !! key) ->
  (value = false \/ snapshot l !! key = Some true) ->
  exists l',
    Locker.ChangeValue sch (Some l) key value = (Some l', None)
    /\ snapshot l' = <[key := value]> (snapshot l).
Proof.
  rewrite snapshot_lookup. intros [b Hb] Hv.
  unfold Locker.ChangeValue.
  destruct (Locker.subjects l !! key) as [[sb|]|] eqn:Hk; [| |done].
  - unfold Subject.Set_.
    destruct (Subject.NotifyAll sch _ (Locker.cond l)) as [c' e].
    eexists. split; [done|]. unfold snapshot. simpl. by rewrite fmap_insert.
  - destruct Hv as [->|Hv]; [|done].
    eexists. split; [done|]. unfold snapshot. simpl. by rewrite fmap_insert.
Qed.

(** X8.  The gate follows the conditions.  Setting a registered condition
    to false lets [DoFunc] through at once: it calls [f] with the snapshot
    of the conditions in which that key is false.  Setting a condition to
    true when all conditions are true leaves the gate shut, and so does a
    Locker that has no condition at all: [DoFunc] blocks without calling
    [f]. *)
Theorem ChangeValue_drives_DoFunc {W : Type} (l : Locker.t) (key : Z)
    (wakes : list Locker.t) (f : gmap Z bool -> W -> W * option error)
    (w : W) :
  (is_Some (snapshot l !! key) ->
   Locker.DoFunc (Locker.ChangeValue sch (Some l) key false).1 wakes f w
   = Returns (f (<[key := false]> (snapshot l)) w))
  /\ (is_Some (snapshot l !! key) -> all_true l ->
      Locker.DoFunc (Locker.ChangeValue sch (Some l) key true).1 [] f w
      = Blocks)
  /\ (Forall (fun l0 => Locker.subjects l0 = ∅) (l :: wakes) ->
      Locker.DoFunc (Some l) wakes f w = Blocks).
Proof.
  split; [|split].
  - intros Hk.
    destruct (ChangeValue_snapshot l key false Hk) as (l' & -> & Hs);
      [by left|].
    cbn [fst]. unfold Locker.DoFunc. rewrite wait_loop_unfold.
    assert ((Locker.hasFalse l').2 = true) as ->.
    { apply hasFalse_true. exists key. by rewrite Hs, lookup_insert_eq. }
    by rewrite Hs.
  - intros Hk Hall.
    destruct (ChangeValue_snapshot l key true Hk) as (l' & -> & Hs).
    { right. destruct Hk as [b Hb]. by rewrite Hb, (Hall key b Hb). }
    cbn [fst]. unfold Locker.DoFunc. rewrite wait_loop_unfold.
    assert ((Locker.hasFalse l').2 = false) as ->; [|done].
    apply hasFalse_false. intros k b. rewrite Hs.
    destruct (decide (key = k)) as [->|Hne].
    + rewrite lookup_insert_eq. by intros [= <-].
    + rewrite lookup_insert_ne by done. apply Hall.
  - intros Hall. unfold Locker.DoFunc.
    assert (Locker.wait_loop wakes l = Blocks) as ->; [|done].
    revert l Hall. induction wakes as [|woken rest IH]; intros cur Hall;
      rewrite wait_loop_unfold;
      apply Forall_cons in Hall as [Hcur Hrest].
    + assert ((Locker.hasFalse cur).2 = false) as ->; [|done].
      apply hasFalse_false. intros k b. unfold snapshot.
      rewrite Hcur, fmap_empty. by rewrite lookup_empty.
    + assert ((Locker.hasFalse cur).2 = false) as ->; [|by apply IH].
      apply hasFalse_false. intros k b. unfold snapshot.
      rewrite Hcur, fmap_empty. by rewrite lookup_empty.
Qed.
End locker_more.

Lemma ChangeValue_pulses_once_witness :
  registered locker_all_true Buffer.IsRunning true
  /\ exists l',
      Locker.ChangeValue in_order (Some locker_all_true) Buffer.IsRunning false
      = (Some l', None)
      /\ Locker.pulses (Locker.cond l') = [Locker.Broadcast].
Proof.
  assert (registered locker_all_true Buffer.IsRunning true) as H.
  { eexists _, _. split; [reflexivity|]. split; [reflexivity|].
    intros b c. reflexivity. }
  split; [exact H|].
  destruct (ChangeValue_pulses_once in_order locker_all_true Buffer.IsRunning
              false true H) as (l' & E & _ & _ & Hp & _).
  exists l'. split; [exact E|exact Hp].
Defined.

Lemma Locker_unknown_key_witness :
  Locker.subjects locker_all_true !! 7 = None
  /\ Locker.ChangeValue in_order (Some locker_all_true) 7 true
     = (Some locker_all_true, Some ErrKeyNotExist).
Proof.
  split; [reflexivity|].
  apply (proj1 (Locker_unknown_key in_order locker_all_true 7 true)).
  reflexivity.
Defined.

Lemma ChangeValue_drives_DoFunc_witness :
  is_Some (snapshot locker_all_true !! Buffer.IsEmpty)
  /\ Locker.DoFunc
       (Locker.ChangeValue in_order (Some locker_all_true) Buffer.IsEmpty
          false).1 [] record_call []
     = Returns (record_call
                  (<[Buffer.IsEmpty := false]> (snapshot locker_all_true)) []).
Proof.
  assert (is_Some (snapshot locker_all_true !! Buffer.IsEmpty)) as H
    by (eexists; reflexivity).
  split; [exact H|].
  exact (proj1 (ChangeValue_drives_DoFunc in_order locker_all_true
                  Buffer.IsEmpty [] record_call []) H).
Defined.

(** ** Queue: what the size observer is told *)

Section queue_observed.
Context {T W : Type} `{!Zero T} (sch : Scheduler) (fn : Action Z W).
Implicit Types (q : Queue.t T W) (cells : list (nat * T)) (w : W).

Lemma tell_app w (r1 r2 : list Z) :
  tell fn w (r1 ++ r2) = tell fn (tell fn w r1) r2.
Proof. unfold tell. by rewrite foldl_app. Qed.

Lemma Edit_report (s : Subject.t Z W) (f : Z -> Z) w :
  Subject.observers s = [reactiveObserver fn] ->
  exists e,
    Subject.Edit sch (Some s) (Some f) w
    = (Some {| Subject.state := f (Subject.state s);
               Subject.observers := Subject.observers s |},
       (fn (f (Subject.state s)) w).1, e).
Proof.
  intros Ho. unfold Subject.Edit.
  rewrite (NotifyAll_single sch _ (reactiveObserver fn)) by done.
  cbn [Subject.state Observer.Notify reactiveObserver].
  destruct (fn (f (Subject.state s)) w) as [w' e]. by eexists.
Qed.

Lemma Edit_silent (s : Subject.t Z W) (f : Z -> Z) w :
  Subject.observers s = [] ->
  Subject.Edit sch (Some s) (Some f) w
  = (Some {| Subject.state := f (Subject.state s);
             Subject.observers := Subject.observers s |}, w, None).
Proof.
  intros Ho. unfold Subject.Edit. by rewrite NotifyAll_no_observers.
Qed.

Lemma Enqueue_tells observed q cells v w :
  represents q cells -> observed_by fn observed q ->
  exists q',
    Queue.Enqueue sch (Some q) v w
    = (Some q',
       tell fn w (if observed then [int_wrap (Z.of_nat (S (length cells)))]
                  else []), None)
    /\ represents q' (cells ++ [(length (Queue.nodes q), v)])
    /\ observed_by fn observed q'.
Proof.
  intros Hr Hobs.
  destruct (Enqueue_represents sch q cells v w Hr)
    as (q' & w' & E & Hr' & e & HE).
  pose proof (rep_size _ _ Hr) as Hsz.
  destruct observed.
  - destruct Hobs as (s & Hs & Ho). rewrite Hs in HE, Hsz.
    cbn [default from_option id] in HE. simpl in Hsz.
    destruct (Edit_report s (fun size => int_wrap (size + 1)) w Ho)
      as (e' & HE').
    rewrite HE' in HE. injection HE as Hs' Hw' _.
    exists q'. rewrite E, <- Hw', Hsz, int_wrap_add.
    split; [|split; [done|]].
    + unfold tell. simpl.
      by replace (Z.of_nat (length cells) + 1)
        with (Z.of_nat (S (length cells))) by lia.
    + eexists. split; [by rewrite <- Hs'|done].
  - assert (Subject.observers (default Subject.new (Queue.size q)) = [])
      as Ho.
    { destruct (Queue.size q) as [s|] eqn:Hs; [by apply Hobs|done]. }
    rewrite (Edit_silent _ _ w Ho) in HE. injection HE as Hs' Hw' _.
    exists q'. rewrite E, <- Hw'. split; [done|]. split; [done|].
    intros s Hs. rewrite <- Hs' in Hs. injection Hs as <-. exact Ho.
Qed.

Lemma Dequeue_tells observed q c rest w :
  represents q (c :: rest) -> observed_by fn observed q ->
  exists q',
    Queue.Dequeue sch (Some q) w
    = Returns (Some q',
               tell fn w (if observed then [int_wrap (Z.of_nat (length rest))]
                          else []), (c.2, None))
    /\ represents q' rest
    /\ observed_by fn observed q'.
Proof.
  intros Hr Hobs.
  destruct (Dequeue_represents sch q c rest w Hr)
    as (q' & w' & E & Hr' & e & HE).
  pose proof (rep_size _ _ Hr) as Hsz.
  destruct (rep_size_live _ _ Hr) as [s Hs]; [done|].
  rewrite Hs in HE, Hsz. simpl in Hsz.
  assert (int_wrap (Subject.state s - 1) = int_wrap (Z.of_nat (length rest)))
    as Hnew.
  { rewrite Hsz. unfold Z.sub. rewrite int_wrap_add. f_equal. lia. }
  destruct observed.
  - destruct Hobs as (s' & Hs' & Ho). rewrite Hs in Hs'.
    injection Hs' as <-.
    destruct (Edit_report s (fun size => int_wrap (size - 1)) w Ho)
      as (e' & HE').
    rewrite HE' in HE. injection HE as Hq' Hw' _.
    exists q'. rewrite E, <- Hw', Hnew. split; [done|]. split; [done|].
    eexists. split; [by rewrite <- Hq'|done].
  - pose proof (Hobs s Hs) as Ho.
    rewrite (Edit_silent _ _ w Ho) in HE. injection HE as Hq' Hw' _.
    exists q'. rewrite E, <- Hw'. split; [done|]. split; [done|].
    intros s' Hs'. rewrite <- Hq' in Hs'. injection Hs' as <-. exact Ho.
Qed.

Lemma enqueue_each_tells observed vs q cells w :
  represents q cells -> observed_by fn observed q ->
  exists q' cells',
    QueueOp.enqueue_each sch vs (Some q, w)
    = (Some q',
       tell fn w
         (if observed
          then (fun i => int_wrap (Z.of_nat (length cells + S i)))
                 <$> seq 0 (length vs)
          else []))
    /\ represents q' cells' /\ cells'.*2 = cells.*2 ++ vs
    /\ observed_by fn observed q'.
Proof.
  revert q cells w. induction vs as [|v vs IH]; intros q cells w Hr Hobs.
  - exists q, cells. rewrite app_nil_r. by destruct observed.
  - destruct (Enqueue_tells observed q cells v w Hr Hobs)
      as (q1 & E & Hr1 & Hobs1).
    destruct (IH q1 _ (tell fn w
                (if observed then [int_wrap (Z.of_nat (S (length cells)))]
                 else [])) Hr1 Hobs1)
      as (q' & cells' & E' & Hr' & Hv & Hobs').
    exists q', cells'. split; [|split; [done|split; [|done]]].
    + unfold QueueOp.enqueue_each in *. cbn [foldl]. rewrite E, E'.
      f_equal. rewrite <- tell_app. f_equal.
      destruct observed; [|done].
      cbn [length seq fmap list_fmap app].
      rewrite Nat.add_1_r at 1. f_equal.
      rewrite <- fmap_S_seq, <- list_fmap_compose.
      apply list_fmap_ext. intros i x _. simpl.
      rewrite length_app. simpl. do 2 f_equal. lia.
    + rewrite Hv, fmap_app. simpl. by rewrite <- app_assoc.
Qed.

Lemma traffic_tells (trs : list (QueueTraffic.t T)) observed q cells w :
  represents q cells -> observed_by fn observed q ->
  exists q' cells' observed',
    QueueOp.run_all sch (QueueTraffic.op <$> trs) (Some q, w)
    = Returns (Some q',
               tell fn w
                 (QueueTraffic.size_reports (length cells) observed trs))
    /\ represents q' cells' /\ observed_by fn observed' q'.
Proof.
  revert observed q cells w.
  induction trs as [|tr trs IH]; intros observed q cells w Hr Hobs.
  - by exists q, cells, observed.
  - destruct tr as [v|vs| |];
      cbn [fmap list_fmap QueueTraffic.op QueueOp.run_all QueueOp.run
           QueueTraffic.size_reports].
    + destruct (Enqueue_tells observed q cells v w Hr Hobs)
        as (q1 & -> & Hr1 & Hobs1).
      destruct (IH observed q1 _ (tell fn w
                  (if observed then [int_wrap (Z.of_nat (S (length cells)))]
                   else [])) Hr1 Hobs1)
        as (q' & cells' & observed' & E' & Hr' & Hobs').
      exists q', cells', observed'. rewrite tell_app.
      rewrite length_app, Nat.add_1_r in E'. by rewrite E'.
    + rewrite EnqueueMany_each.
      destruct (enqueue_each_tells observed vs q cells w Hr Hobs)
        as (q1 & cells1 & -> & Hr1 & Hv1 & Hobs1).
      destruct (IH observed q1 cells1 (tell fn w
                  (if observed
                   then (fun i => int_wrap (Z.of_nat (length cells + S i)))
                          <$> seq 0 (length vs)
                   else [])) Hr1 Hobs1)
        as (q' & cells' & observed' & E' & Hr' & Hobs').
      exists q', cells', observed'. rewrite tell_app.
      assert (length cells1 = (length cells + length vs)%nat) as Hlen.
      { rewrite <- (length_fmap snd cells1), Hv1, length_app.
        by rewrite length_fmap. }
      rewrite Hlen in E'. by rewrite E'.
    + destruct cells as [|c rest]; cbn [length].
      * rewrite (Dequeue_empty sch q w Hr). by apply (IH observed q []).
      * destruct (Dequeue_tells observed q c rest w Hr Hobs)
          as (q1 & -> & Hr1 & Hobs1).
        destruct (IH observed q1 rest (tell fn w
                    (if observed then [int_wrap (Z.of_nat (length rest))]
                     else [])) Hr1 Hobs1)
          as (q' & cells' & observed' & E' & Hr' & Hobs').
        exists q', cells', observed'. rewrite tell_app.
        by rewrite E'.
    + destruct cells as [|c rest]; cbn [length].
      * assert (Queue.Reset (Some q) = Some q) as ->.
        { unfold Queue.Reset. by rewrite (rep_front _ _ Hr). }
        by apply (IH observed q []).
      * assert (Queue.Reset (Some q)
                = Some {| Queue.nodes := Queue.nodes q; Queue.front := None;
                          Queue.back := None; Queue.size := None |}) as ->.
        { unfold Queue.Reset. by rewrite (rep_front _ _ Hr). }
        apply (IH false _ []); [|done].
        split; try done. constructor.
Qed.

Lemma size_reports_unobserved (trs : list (QueueTraffic.t T)) (len : nat) :
  QueueTraffic.size_reports len false trs = [].
Proof.
  revert len. induction trs as [|[v|vs| |] trs IH]; intros len; simpl;
    try done; destruct len; by rewrite ?IH.
Qed.

Lemma run_all_app (ops1 ops2 : list (QueueOp.t T W))
    (st : ptr (Queue.t T W) * W) :
  QueueOp.run_all sch (ops1 ++ ops2) st
  = match QueueOp.run_all sch ops1 st with
    | Returns st' => QueueOp.run_all sch ops2 st'
    | Blocks => Blocks
    | Panics => Panics
    end.
Proof.
  revert st. induction ops1 as [|op ops1 IH]; intros st; [done|].
  cbn [app QueueOp.run_all]. destruct (QueueOp.run sch op st); by rewrite ?IH.
Qed.
End queue_observed.

(** ** Queue: further properties *)

Section queue_more.
Context {T W : Type} `{!Zero T} (sch : Scheduler).
Implicit Types (q : Queue.t T W) (cells : list (nat * T)) (w : W).

Lemma ObserveSize_observed (fn : Action Z W) :
  exists q : Queue.t T W,
    (Queue.ObserveSize (Some Queue.new) (Some fn)).1 = Some q
    /\ represents q [] /\ observed_by fn true q.
Proof.
  eexists. split; [reflexivity|]. split.
  - split; try done. constructor.
  - eexists. by split.
Qed.

(** X9.  The observer attached with [ObserveSize] to a new queue is told
    every change of the size, once and in order: the new size after each
    element enqueued (by [Enqueue] or [EnqueueMany]) and after each element
    dequeued; a [Dequeue] of the empty queue tells it nothing, and neither
    does anything after a [Reset] of a queue that is not empty.  What the
    observer returns never makes a call on the queue fail or stop. *)
Theorem Queue_observer_is_told_every_change (fn : Action Z W)
    (trs : list (QueueTraffic.t T)) (w : W) :
  exists q,
    QueueOp.run_all sch
      (QueueOp.ObserveSize (Some fn) :: (QueueTraffic.op <$> trs))
      (Some Queue.new, w)
    = Returns (Some q, tell fn w (QueueTraffic.size_reports 0 true trs)).
Proof.
  destruct (ObserveSize_observed fn) as (q1 & E & Hr & Hobs).
  cbn [QueueOp.run_all QueueOp.run]. rewrite E.
  destruct (traffic_tells sch fn trs true q1 [] w Hr Hobs)
    as (q' & cells' & observed' & E' & _).
  by exists q'.
Qed.

(** X10.  [Reset] of a queue that holds elements drops the size Subject and
    with it the observer: whatever calls follow, the observer is told
    nothing more.  [Reset] of an empty queue changes nothing and keeps the
    observer. *)
Theorem Reset_detaches_the_observer (fn : Action Z W)
    (trs0 trs : list (QueueTraffic.t T)) (w : W) :
  let before :=
    QueueOp.ObserveSize (Some fn) :: (QueueTraffic.op <$> trs0) in
  exists q0 w0,
    QueueOp.run_all sch before (Some Queue.new, w) = Returns (Some q0, w0)
    /\ (Queue.elements q0 <> [] ->
        exists q1,
          QueueOp.run_all sch
            (before ++ QueueOp.Reset :: (QueueTraffic.op <$> trs))
            (Some Queue.new, w)
          = Returns (Some q1, w0))
    /\ (Queue.elements q0 = [] ->
        QueueOp.run_all sch
          (before ++ QueueOp.Reset :: (QueueTraffic.op <$> trs))
          (Some Queue.new, w)
        = QueueOp.run_all sch (before ++ (QueueTraffic.op <$> trs))
            (Some Queue.new, w)).
Proof.
  intros before.
  destruct (ObserveSize_observed fn) as (q1 & E & Hr & Hobs).
  destruct (traffic_tells sch fn trs0 true q1 [] w Hr Hobs)
    as (q0 & cells0 & observed0 & E0 & Hr0 & Hobs0).
  assert (QueueOp.run_all sch before (Some Queue.new, w)
          = Returns (Some q0,
                     tell fn w (QueueTraffic.size_reports 0 true trs0)))
    as Hbefore.
  { unfold before. cbn [QueueOp.run_all QueueOp.run]. by rewrite E. }
  exists q0, (tell fn w (QueueTraffic.size_reports 0 true trs0)).
  split; [done|].
  rewrite !run_all_app, Hbefore, (elements_represents q0 cells0 Hr0).
  cbn [QueueOp.run_all QueueOp.run]. split.
  - intros Hne. destruct cells0 as [|c rest]; [done|].
    assert (Queue.Reset (Some q0)
            = Some {| Queue.nodes := Queue.nodes q0; Queue.front := None;
                      Queue.back := None; Queue.size := None |}) as ->.
    { unfold Queue.Reset. by rewrite (rep_front _ _ Hr0). }
    destruct (traffic_tells sch fn trs false
                {| Queue.nodes := Queue.nodes q0; Queue.front := None;
                   Queue.back := None; Queue.size := None |} []
                (tell fn w (QueueTraffic.size_reports 0 true trs0)))
      as (q' & cells' & observed' & E' & _).
    { split; try done. constructor. }
    { done. }
    exists q'. rewrite E'. by rewrite size_reports_unobserved.
  - intros Hnil. apply fmap_nil_inv in Hnil. subst cells0.
    assert (Queue.Reset (Some q0) = Some q0) as ->; [|done].
    unfold Queue.Reset. by rewrite (rep_front _ _ Hr0).
Qed.

(** X11.  [Peek] shows what the next [Dequeue] returns and removes nothing.
    After any calls on a new queue: when the queue is empty both return the
    zero value with the empty-queue error and [Dequeue] changes neither the
    queue nor the world of the observers; otherwise [Peek] returns the
    oldest element with a nil error and [Dequeue] returns the same element
    and leaves the elements after it. *)
Theorem Peek_shows_the_next_Dequeue (ops : list (QueueOp.t T W)) (w : W) :
  exists q w',
    QueueOp.run_all sch ops (Some Queue.new, w) = Returns (Some q, w')
    /\ match foldl QueueOp.model [] ops with
       | [] =>
           Queue.Peek (Some q) = Returns (zero, Some ErrEmptyQueue)
           /\ Queue.Dequeue sch (Some q) w'
              = Returns (Some q, w', (zero, Some ErrEmptyQueue))
       | v :: rest =>
           Queue.Peek (Some q) = Returns (v, None)
           /\ exists q' w'',
               Queue.Dequeue sch (Some q) w'
               = Returns (Some q', w'', (v, None))
               /\ Queue.elements q' = rest
       end.
Proof.
  destruct (run_all_represents sch ops Queue.new [] w (represents_new))
    as (q & w' & cells & Hrun & Hr & Hv).
  cbn [fmap list_fmap] in Hv.
  exists q, w'. split; [done|]. rewrite <- Hv.
  assert (Queue.Peek (Some q)
          = match cells with
            | [] => Returns (zero, Some ErrEmptyQueue)
            | c :: _ => Returns (c.2, None)
            end) as HP.
  { unfold Queue.Peek. rewrite (rep_front _ _ Hr).
    destruct cells as [|c rest]; [done|].
    destruct (rep_linked _ _ Hr) as [Hc _]. simpl. by rewrite Hc. }
  rewrite HP. destruct cells as [|[a v] rest]; cbn [fmap list_fmap snd].
  - split; [done|]. by apply Dequeue_empty.
  - split; [done|].
    destruct (Dequeue_represents sch q (a, v) rest w' Hr)
      as (q' & w'' & E & Hr' & _).
    exists q', w''. split; [done|]. by apply elements_represents.
Qed.

(** X12.  The readers agree with the contents.  After any calls on a new
    queue [IsEmpty] is true exactly when the queue holds no element, and,
    as long as the number of elements is below [2^63], [Slice] returns the
    elements oldest first and [Size] is zero exactly when [IsEmpty] is
    true. *)
Theorem Queue_readers_agree (ops : list (QueueOp.t T W)) (w : W) :
  exists q w',
    QueueOp.run_all sch ops (Some Queue.new, w) = Returns (Some q, w')
    /\ Queue.IsEmpty (Some q)
       = bool_decide (foldl QueueOp.model [] ops = [])
    /\ (Z.of_nat (length (foldl QueueOp.model [] ops)) < 2 ^ 63 ->
        Queue.Slice (Some q) = foldl QueueOp.model [] ops
        /\ bool_decide (Queue.Size (Some q) = 0) = Queue.IsEmpty (Some q)).
Proof.
  destruct (run_all_represents sch ops Queue.new [] w (represents_new))
    as (q & w' & cells & Hrun & Hr & Hv).
  cbn [fmap list_fmap] in Hv.
  exists q, w'. split; [done|]. rewrite <- Hv.
  assert (Queue.IsEmpty (Some q) = bool_decide (cells.*2 = [])) as HE.
  { unfold Queue.IsEmpty. rewrite (rep_front _ _ Hr).
    destruct cells; by simpl. }
  split; [done|]. intros Hlt. rewrite length_fmap in Hlt.
  assert (Subject.MustGet (Queue.size q) = Z.of_nat (length cells)) as Hsz.
  { rewrite (rep_size _ _ Hr). apply int_wrap_small. lia. }
  unfold Queue.Slice, Queue.Size. rewrite HE, Hsz.
  rewrite (elements_represents q cells Hr).
  destruct cells as [|c rest]; [done|]. by simpl.
Qed.
End queue_more.

(** ** Queue: Copy *)

Section queue_copy.
Context {T W : Type} `{!Zero T} (sch : Scheduler).
Implicit Types (q : Queue.t T W) (cells : list (nat * T)) (w : W).

Lemma copy_rest_linked (rest : list (nat * T)) (fuel : nat)
    (heap : list (Queue.queue_node T)) (c : Queue.t T W) pc :
  linked heap rest -> (length rest <= fuel)%nat ->
  linked (Queue.nodes c) pc -> NoDup pc.*1 -> pc <> [] ->
  Queue.back c = fst <$> last pc ->
  exists c' pc',
    Queue.copy_rest fuel heap (fst <$> head rest) c = Returns c'
    /\ linked (Queue.nodes c') pc' /\ NoDup pc'.*1
    /\ Queue.back c' = fst <$> last pc'
    /\ Queue.front c' = Queue.front c /\ Queue.size c' = Queue.size c
    /\ head pc' = head pc /\ pc'.*2 = pc.*2 ++ rest.*2.
Proof.
  revert fuel c pc. induction rest as [|[a v] rest IH];
    intros fuel c pc Hl Hfuel Hc Hnd Hne Hb.
  - exists c, pc. rewrite app_nil_r. by destruct fuel.
  - destruct Hl as [Ha Hl]. simpl in Ha, Hfuel.
    destruct fuel as [|fuel]; [lia|].
    cbn [head fmap option_fmap option_map fst Queue.copy_rest].
    rewrite Ha. cbn [Queue.value Queue.next].
    destruct (last pc) as [[b vb]|] eqn:Hlast;
      [|by apply last_None in Hlast].
    rewrite Hb. cbn [fmap option_fmap option_map fst].
    set (c1 := {| Queue.nodes := _; Queue.front := _; Queue.back := _;
                  Queue.size := _ |}).
    destruct (IH fuel c1 (pc ++ [(length (Queue.nodes c), v)]))
      as (c' & pc' & E & Hl' & Hnd' & Hb' & Hf' & Hs' & Hh' & Hv');
      try done.
    + lia.
    + by apply (linked_snoc _ _ b vb).
    + rewrite fmap_app. apply NoDup_app. split; [done|]. split.
      * intros x Hx [->|[]%elem_of_nil]%elem_of_cons.
        apply (linked_in_heap _ _ _ Hc) in Hx. simpl in Hx. lia.
      * apply NoDup_singleton.
    + by destruct pc.
    + simpl. by rewrite last_snoc.
    + exists c', pc'. split; [done|]. split; [done|]. split; [done|].
      split; [done|]. split; [done|]. split; [done|]. split.
      * rewrite Hh'. by destruct pc.
      * rewrite Hv', fmap_app. simpl. by rewrite <- app_assoc.
Qed.

Lemma Copy_represents q cells :
  represents q cells ->
  exists c cells',
    Queue.Copy (Some q) = Returns (Some c)
    /\ represents c cells' /\ cells'.*2 = cells.*2
    /\ exists s, Queue.size c = Some s /\ Subject.observers s = [].
Proof.
  intros Hr. unfold Queue.Copy. rewrite (rep_front _ _ Hr).
  assert (Subject.MustGet (Subject.Copy (Queue.size q))
          = int_wrap (Z.of_nat (length cells))) as Hsz.
  { rewrite <- (rep_size _ _ Hr). by destruct (Queue.size q). }
  assert (exists s, Subject.Copy (Queue.size q) = Some s
                    /\ Subject.observers s = []) as (s & Hs & Ho).
  { destruct (Queue.size q); by eexists. }
  destruct cells as [|[a v] rest].
  - eexists _, []. split; [done|]. split; [|split; [done|]].
    + split; try done; try constructor.
    + exists s. by split.
  - destruct (rep_linked _ _ Hr) as [Ha Hl]. simpl in Ha.
    cbn [head fmap option_fmap option_map fst]. rewrite Ha.
    cbn [Queue.value Queue.next].
    pose proof (linked_length _ _ (rep_linked _ _ Hr) (rep_nodup _ _ Hr))
      as Hlen. simpl in Hlen.
    edestruct (copy_rest_linked rest (length (Queue.nodes q)) (Queue.nodes q)
                 {| Queue.nodes :=
                      [{| Queue.value := v; Queue.next := None |}];
                    Queue.front := Some 0%nat; Queue.back := Some 0%nat;
                    Queue.size := Subject.Copy (Queue.size q) |}
                 [(0%nat, v)])
      as (c' & pc' & E & Hl' & Hnd' & Hb' & Hf' & Hs' & Hh' & Hv');
      try done.
    + lia.
    + apply NoDup_singleton.
    + rewrite E. exists c', pc'. split; [done|].
      assert (length pc' = S (length rest)) as Hlen'.
      { rewrite <- (length_fmap snd pc'), Hv'. simpl.
        by rewrite length_fmap. }
      split; [|split; [done|]].
      * split; try done.
        -- by rewrite Hf', Hh'.
        -- rewrite Hs', Hlen'. exact Hsz.
        -- intros _. rewrite Hs', Hs. by eexists.
      * exists s. by rewrite Hs'.
Qed.

(** X13.  [Copy] gives a queue of its own with the same contents: after any
    calls on a new queue, the copy holds the same elements in the same
    order, reports the same size and satisfies the structural invariant,
    and it has no observer: whatever is done to the copy, the world of the
    observers of the original stays as it is.  The copy of a nil queue is
    nil. *)
Theorem Copy_is_an_unobserved_twin (ops : list (QueueOp.t T W)) (w : W) :
  exists q w' c cells,
    QueueOp.run_all sch ops (Some Queue.new, w) = Returns (Some q, w')
    /\ Queue.Copy (Some q) = Returns (Some c)
    /\ represents c cells
    /\ Queue.elements c = Queue.elements q
    /\ Queue.Size (Some c) = Queue.Size (Some q)
    /\ (forall (trs : list (QueueTraffic.t T)) w1,
          exists c',
            QueueOp.run_all sch (QueueTraffic.op <$> trs) (Some c, w1)
            = Returns (Some c', w1))
    /\ Queue.Copy (None : ptr (Queue.t T W)) = Returns None.
Proof.
  destruct (run_all_represents sch ops Queue.new [] w (represents_new))
    as (q & w' & cells & Hrun & Hr & _).
  destruct (Copy_represents q cells Hr) as (c & cells' & E & Hr' & Hv & Hobs).
  exists q, w', c, cells'. split; [done|]. split; [done|]. split; [done|].
  split; [|split; [|split; [|done]]].
  - by rewrite (elements_represents c cells' Hr'),
      (elements_represents q cells Hr).
  - simpl. rewrite (rep_size _ _ Hr'), (rep_size _ _ Hr).
    by rewrite <- (length_fmap snd cells'), Hv, length_fmap.
  - intros trs w1.
    destruct (traffic_tells sch (fun _ w => (w, None)) trs false c cells' w1
                Hr') as (c' & cells'' & observed' & E' & _).
    { destruct Hobs as (s & Hs & Ho). intros s' Hs'.
      rewrite Hs in Hs'. by injection Hs' as <-. }
    exists c'. rewrite E'. by rewrite size_reports_unobserved.
Qed.
End queue_copy.

Lemma Reset_detaches_the_observer_witness :
  exists q1 : Queue.t Z (list Z),
    QueueOp.run_all in_order
      ((QueueOp.ObserveSize (Some (fun n log => (log ++ [n], None)))
        :: (QueueTraffic.op <$> [QueueTraffic.Enqueue 5]))
       ++ QueueOp.Reset
          :: (QueueTraffic.op <$> [QueueTraffic.Enqueue 6;
                                   QueueTraffic.Dequeue]))
      (Some Queue.new, [])
    = Returns (Some q1, [1]).
Proof.
  destruct (Reset_detaches_the_observer in_order
              (fun n log => (log ++ [n], None))
              [QueueTraffic.Enqueue 5]
              [QueueTraffic.Enqueue 6; QueueTraffic.Dequeue] [])
    as (q0 & w0 & E0 & H & _).
  injection E0 as <- <-.
  apply H. discriminate.
Defined.

Lemma Queue_readers_agree_witness :
  exists q : Queue.t Z unit,
    QueueOp.run_all in_order [QueueOp.Enqueue 4; QueueOp.Enqueue 5]
      (Some Queue.new, tt) = Returns (Some q, tt)
    /\ Queue.Slice (Some q) = [4; 5].
Proof.
  destruct (Queue_readers_agree in_order
              [QueueOp.Enqueue 4; QueueOp.Enqueue 5] tt)
    as (q & [] & E & _ & H).
  exists q. split; [exact E|].
  apply H. simpl. lia.
Defined.


(** ** The running relay *)

Section relay_steps.
Context {T : Type} `{!Zero T} (sch : Scheduler).
Implicit Types (b : Buffer.t T) (st : Relay.t T).







End relay_steps.

Section relay_invariant.
Context {T : Type} `{!Zero T} (sch : Scheduler).
Implicit Types (b : Buffer.t T) (st : Relay.t T).
#[local] Arguments Buffer.Reset : simpl never.
#[local] Arguments Buffer.listenForIncomingMessages : simpl never.
#[local] Arguments Buffer.accept : simpl never.
#[local] Arguments Buffer.sendSingleMessage : simpl never.


Lemma live_clean clean clean' alive b acc rcv :
  relay_live sch clean alive b acc rcv ->
  relay_live sch (clean && clean') alive b acc rcv.
Proof.
  intros (q0 & cells & observed & ch & l & Hq & Hr & Hobs & Hl & Hk & Hch
          & Hc & Hrcv & Hsub & Hcl).
  exists q0, cells, observed, ch, l.
  split; [done|]. split; [done|]. split; [done|]. split; [done|].
  split; [done|]. split; [done|]. split; [done|]. split; [done|].
  split; [done|]. intros [-> _]%andb_true_iff. by apply Hcl.
Qed.

















End relay_invariant.

(** ** The running relay: Close completes *)

Section relay_closing.
Context {T : Type} `{!Zero T} (sch : Scheduler).
Implicit Types (b : Buffer.t T) (st : Relay.t T).
#[local] Arguments Buffer.Reset : simpl never.
#[local] Arguments Buffer.listenForIncomingMessages : simpl never.
#[local] Arguments Buffer.accept : simpl never.
#[local] Arguments Buffer.sendSingleMessage : simpl never.













End relay_closing.

(** ** The running relay at work *)






(** ** Package common: running actions *)

Section common_run.
Context {C W : Type} `{!context_Context C W}.
Implicit Types (s arr pre post : list (ptr (Common.Action C W))) (w : W).

Lemma compact_app s1 s2 : compact (s1 ++ s2) = compact s1 ++ compact s2.
Proof. unfold compact. by rewrite omap_app, fmap_app. Qed.

Lemma compact_length s : (length (compact s) <= length s)%nat.
Proof.
  unfold compact. rewrite length_fmap.
  induction s as [|[a|] s IH]; cbn in *; lia.
Qed.

Lemma compact_idemp s : compact (compact s) = compact s.
Proof.
  unfold compact. f_equal.
  induction s as [|[a|] s IH]; cbn; by rewrite ?IH.
Qed.

Lemma reject_loop_spec post : forall cur pre,
  length cur = length pre ->
  take (length (compact pre)) cur = compact pre ->
  exists arr,
    Common.reject_loop (seq (length pre) (length post)) (cur ++ post)
      (length (compact pre))
    = Returns (arr, length (compact (pre ++ post)))
    /\ length arr = length (pre ++ post)
    /\ take (length (compact (pre ++ post))) arr = compact (pre ++ post).
Proof.
  induction post as [|a post IH]; intros cur pre Hlen Htake.
  - exists cur. rewrite !app_nil_r. by split.
  - cbn [length seq Common.reject_loop].
    pose proof (compact_length pre) as Hle.
    rewrite lookup_app_r, Hlen, Nat.sub_diag by lia. cbn [lookup list_lookup].
    destruct a as [act|].
    + rewrite bool_decide_eq_true_2 by (rewrite length_app; simpl; lia).
      destruct (IH (<[length (compact pre) := Some act]> (cur ++ [Some act]))
                  (pre ++ [Some act])) as (arr & Hrun & Hl & Ht).
      * by rewrite length_insert, !length_app, Hlen.
      * rewrite compact_app. cbn. rewrite length_app. cbn.
        rewrite Nat.add_1_r.
        rewrite (take_S_r _ _ (Some act)).
        -- rewrite take_insert_ge by lia.
           by rewrite take_app_le, Htake by lia.
        -- apply list_lookup_insert_eq. rewrite length_app. simpl. lia.
      * exists arr. rewrite <- (app_assoc pre [Some act] post) in *.
        cbn [app] in *. split; [|done].
        rewrite <- Hrun. rewrite length_app. cbn [length].
        rewrite Nat.add_1_r. f_equal.
        -- change (cur ++ Some act :: post)
             with (cur ++ [Some act] ++ post).
           rewrite app_assoc.
           rewrite insert_app_l; [done|]. rewrite length_app. simpl. lia.
        -- rewrite compact_app. cbn. rewrite length_app. cbn. lia.
    + destruct (IH (cur ++ [None]) (pre ++ [None])) as (arr & Hrun & Hl & Ht).
      * by rewrite !length_app, Hlen.
      * rewrite compact_app. cbn. rewrite app_nil_r.
        by rewrite take_app_le by lia.
      * exists arr. rewrite <- (app_assoc pre [None] post) in *.
        cbn [app] in *. split; [|done].
        rewrite <- Hrun. rewrite length_app. cbn [length].
        rewrite Nat.add_1_r. f_equal.
        -- by rewrite <- app_assoc.
        -- rewrite compact_app. cbn. by rewrite app_nil_r.
Qed.

(** X19.  [RejectNilAction] compacts the slice in place: the slice that
    [slice] points to becomes the actions that are not nil, in their order,
    and the array that backed it holds these actions at its front and nil in
    all the places behind them, so a caller that shares the array sees its
    actions moved.  No index is out of range on the way. *)
Theorem RejectNilAction_compacts s :
  Common.RejectNilAction (Some s)
  = Returns (Some (compact s),
             compact s ++ replicate (length s - length (compact s)) None).
Proof.
  unfold Common.RejectNilAction.
  case_bool_decide as H0.
  { apply length_zero_iff_nil in H0. by subst. }
  destruct (reject_loop_spec s [] [] eq_refl eq_refl)
    as (arr & Hrun & Hl & Ht).
  change (Common.reject_loop (seq 0 (length s)) s 0
          = Returns (arr, length (compact s))) in Hrun.
  rewrite Hrun. cbn [app] in Hl, Ht.
  case_bool_decide as Htop.
  - apply length_zero_iff_nil in Htop. rewrite Htop, Hl. simpl.
    by rewrite Nat.sub_0_r.
  - by rewrite Ht, Hl.
Qed.

Lemma run_each_compact (c : C) s w :
  Common.run_each c (compact s) w = Common.run_each c s w.
Proof.
  revert w. induction s as [|[act|] s IH]; intros w; [done| |by cbn].
  cbn. destruct (Done c w); [done|].
  destruct (act c w) as [[w' [e|]]| |]; by rewrite ?IH.
Qed.

Lemma Run_unfold (ctx : ptr C) s w :
  Common.Run ctx s w
  = match compact s with
    | [] => Returns (w, None)
    | _ =>
        match ctx with
        | None => Returns (w, Some (ErrNilParam "ctx"))
        | Some c => Common.run_each c s w
        end
    end.
Proof.
  unfold Common.Run. rewrite RejectNilAction_compacts.
  cbn [default from_option id].
  destruct (compact s) as [|a s'] eqn:E; [done|].
  rewrite bool_decide_eq_false_2 by done.
  destruct ctx as [c|]; [|done]. by rewrite <- E, run_each_compact.
Qed.

Lemma compact_nil s : compact s = [] <-> forall a, a ∈ s -> a = None.
Proof.
  induction s as [|[act|] s IH]; cbn.
  - split; [|done]. by intros _ a ?%elem_of_nil.
  - split; [done|]. intros H. by specialize (H (Some act) ltac:(left)).
  - unfold compact in IH. rewrite IH. split.
    + intros H a [->|?]%elem_of_cons; by auto.
    + intros H a Ha. apply H. by right.
Qed.

Lemma run_each_nil (c : C) s w :
  compact s = [] -> Common.run_each c s w = Returns (w, None).
Proof. intros E. by rewrite <- run_each_compact, E. Qed.

Lemma run_each_done (c : C) s w :
  compact s <> [] -> Done c w = true ->
  Common.run_each c s w = Returns (w, Err c w).
Proof.
  intros Hs Hd. rewrite <- run_each_compact.
  destruct (compact s) as [|a s'] eqn:E; [done|].
  assert (exists act, a = Some act) as [act ->].
  { unfold compact in E. destruct (omap id s); [done|].
    injection E as <- _. by eexists. }
  cbn. by rewrite Hd.
Qed.

Lemma run_each_app (c : C) s1 s2 w :
  Common.run_each c (s1 ++ s2) w
  = match Common.run_each c s1 w with
    | Returns (w', None) => Common.run_each c s2 w'
    | r => r
    end.
Proof.
  revert w. induction s1 as [|[act|] s1 IH]; intros w; [done| |by cbn].
  cbn. destruct (Done c w) eqn:Hd.
  - destruct (Err c w) as [e|] eqn:He; [done|].
    destruct (compact s2) as [|a s'] eqn:E.
    + by rewrite run_each_nil.
    + rewrite run_each_done, He; by rewrite ?E.
  - destruct (act c w) as [[w' [e|]]| |]; by rewrite ?IH.
Qed.

(** X20.  [Run] runs its actions one after the other and the nil ones do
    not count: running a list is running the actions of it that are not nil;
    and running two lists in a row is running the first and, when that
    returns without an error, the second from where the first left the
    world.  An error, a block or a panic of the first is the result. *)
Theorem Run_is_sequential (ctx : ptr C) s1 s2 w :
  Common.Run ctx s1 w = Common.Run ctx (compact s1) w
  /\ Common.Run ctx (s1 ++ s2) w
     = match Common.Run ctx s1 w with
       | Returns (w', None) => Common.Run ctx s2 w'
       | r => r
       end.
Proof.
  split.
  - rewrite !Run_unfold, compact_idemp.
    destruct ctx as [c|]; [|done]. by rewrite run_each_compact.
  - rewrite (Run_unfold ctx (s1 ++ s2)), (Run_unfold ctx s1), compact_app.
    destruct (compact s1) as [|a1 r1] eqn:E1.
    + cbn [app]. rewrite Run_unfold.
      destruct (compact s2) as [|a2 r2] eqn:E2; [done|].
      destruct ctx as [c|]; [|done].
      by rewrite run_each_app, (run_each_nil c s1 w E1).
    + cbn [app]. destruct ctx as [c|]; [|done].
      rewrite run_each_app.
      destruct (Common.run_each c s1 w) as [[w' [e|]]| |]; try done.
      rewrite Run_unfold.
      destruct (compact s2) as [|a2 r2] eqn:E2; [|done].
      by apply run_each_nil.
Qed.

(** X21.  What [Run] checks before it runs an action.  With no action, or
    only nil ones, it returns nil, whatever the context, a nil one too.
    With an action that is not nil and a nil context it returns the
    nil-parameter error for "ctx" and runs nothing.  With a context that is
    done it returns the error of the context and runs nothing. *)
Theorem Run_guards s w :
  ((forall a, a ∈ s -> a = None) ->
   forall ctx : ptr C, Common.Run ctx s w = Returns (w, None))
  /\ ((exists act, Some act ∈ s) ->
      Common.Run None s w = Returns (w, Some (ErrNilParam "ctx"))
      /\ forall c : C, Done c w = true ->
           Common.Run (Some c) s w = Returns (w, Err c w)).
Proof.
  split.
  - intros Hnil%compact_nil ctx. by rewrite Run_unfold, Hnil.
  - intros [act Hact].
    assert (compact s <> []) as Hne.
    { intros Hnil. rewrite compact_nil in Hnil.
      by specialize (Hnil _ Hact). }
    split.
    + rewrite Run_unfold. by destruct (compact s).
    + intros c Hd. rewrite Run_unfold.
      destruct (compact s) eqn:E; [done|].
      apply run_each_done; [by rewrite E|done].
Qed.
End common_run.

(** ** Package rws: the table *)

Section rws_table.
Context {T : Type} `{!Zero T}.
Implicit Types (t : Rws.Table.t T) (tb : list (list T)) (row : list T).


Lemma for_rows_fmap (f : list T -> outcome (list T)) (g : list T -> list T)
    post : forall pre,
  (forall row, row ∈ post -> f row = Returns (g row)) ->
  Rws.Table.for_rows f (seq (length pre) (length post)) (pre ++ post)
  = Returns (pre ++ (g <$> post)).
Proof.
  induction post as [|row post IH]; intros pre Hf; [done|].
  cbn [length seq Rws.Table.for_rows].
  rewrite lookup_app_r, Nat.sub_diag by lia. cbn [lookup list_lookup].
  rewrite (Hf row) by left.
  replace (<[length pre := g row]> (pre ++ row :: post))
    with ((pre ++ [g row]) ++ post).
  - specialize (IH (pre ++ [g row])). rewrite length_app in IH.
    cbn [length] in IH. rewrite Nat.add_1_r in IH.
    rewrite IH by (intros r Hr; apply Hf; by right).
    by rewrite <- app_assoc.
  - rewrite <- app_assoc. cbn [app].
    rewrite insert_app_r_alt, Nat.sub_diag by lia. done.
Qed.

Lemma for_rows_all (f : list T -> outcome (list T)) (g : list T -> list T)
    tb :
  (forall row, row ∈ tb -> f row = Returns (g row)) ->
  Rws.Table.for_rows f (seq 0 (length tb)) tb = Returns (g <$> tb).
Proof. intros Hf. by apply (for_rows_fmap f g tb []). Qed.

Lemma CellAt_shape t (x y : Z) :
  table_shape t ->
  Rws.Table.CellAt (Some t) x y = Returns (default zero (lookup_cell t x y)).
Proof.
  intros [Hw Hh Hrows Hcols]. unfold Rws.Table.CellAt, lookup_cell.
  repeat case_bool_decide; cbn [orb andb]; try done; try lia.
  all: destruct (Rws.Table.table t !! Z.to_nat y) as [row|] eqn:Hy; cbn;
    [pose proof (Forall_lookup_1 _ _ _ _ Hcols Hy) as Hrow; cbn in Hrow;
     apply lookup_lt_Some in Hy;
     destruct (row !! Z.to_nat x) as [c|] eqn:Hx; cbn;
     [apply lookup_lt_Some in Hx|apply lookup_ge_None in Hx]
    |apply lookup_ge_None in Hy]; try done; lia.
Qed.


Lemma SetCellAt_shape t (c : T) (x y : Z) :
  table_shape t ->
  exists t',
    Rws.Table.SetCellAt (Some t) c x y = Returns (Some t')
    /\ table_shape t'
    /\ Rws.Table.width t' = Rws.Table.width t
    /\ Rws.Table.height t' = Rws.Table.height t
    /\ forall x' y',
        default zero (lookup_cell t' x' y')
        = if bool_decide (x' = x /\ y' = y
                          /\ 0 <= x < Rws.Table.width t
                          /\ 0 <= y < Rws.Table.height t)
          then c else default zero (lookup_cell t x' y').
Proof.
  intros Hs. pose proof Hs as [Hw Hh Hrows Hcols].
  unfold Rws.Table.SetCellAt.
  destruct (bool_decide (y < 0) || bool_decide (x < 0)) eqn:E1.
  { exists t. do 4 (split; [done|]). intros x' y'.
    rewrite bool_decide_eq_false_2; [done|].
    apply orb_true_iff in E1 as [E%bool_decide_eq_true|E%bool_decide_eq_true];
      lia. }
  apply orb_false_iff in E1
    as [E1y%bool_decide_eq_false E1x%bool_decide_eq_false].
  destruct (bool_decide (y >= Rws.Table.height t)
            || bool_decide (x >= Rws.Table.width t)) eqn:E2.
  { exists t. do 4 (split; [done|]). intros x' y'.
    rewrite bool_decide_eq_false_2; [done|].
    apply orb_true_iff in E2 as [E%bool_decide_eq_true|E%bool_decide_eq_true];
      lia. }
  apply orb_false_iff in E2
    as [E2y%bool_decide_eq_false E2x%bool_decide_eq_false].
  destruct (lookup_lt_is_Some_2 (Rws.Table.table t) (Z.to_nat y))
    as [row Hy]; [lia|].
  pose proof (Forall_lookup_1 _ _ _ _ Hcols Hy) as Hrow. cbn in Hrow.
  rewrite Hy, bool_decide_eq_true_2 by lia.
  eexists. split; [done|]. split; [|split; [done|split; [done|]]].
  - split; cbn; try done.
    + by rewrite length_insert.
    + apply Forall_insert; [done|]. by rewrite length_insert.
  - intros x' y'. unfold lookup_cell. cbn.
    case_bool_decide as Hpos; [|by rewrite bool_decide_eq_false_2 by lia].
    rewrite list_lookup_insert.
    case_decide as Hyy.
    + destruct Hyy as [Hyy _]. cbn. rewrite list_lookup_insert.
      replace (Rws.Table.table t !! Z.to_nat y') with (Some row)
        by (by rewrite <- Hyy).
      cbn. case_decide as Hxx.
      * rewrite bool_decide_eq_true_2; [done|]. lia.
      * rewrite bool_decide_eq_false_2; [done|]. lia.
    + rewrite bool_decide_eq_false_2; [done|]. lia.
Qed.



Lemma Free_shape t :
  table_shape t ->
  exists t',
    Rws.Table.Free (Some t) = Returns (Some t')
    /\ table_shape t'
    /\ Rws.Table.width t' = 0 /\ Rws.Table.height t' = 0
    /\ Rws.Table.table t' = [].
Proof.
  intros [Hw Hh Hrows Hcols]. unfold Rws.Table.Free.
  case_bool_decide as He.
  - apply length_zero_iff_nil in He. eexists. split; [done|].
    rewrite He. by repeat split.
  - rewrite <- Hrows, (for_rows_all _ (fun _ => [])) by done.
    eexists. split; [done|]. by repeat split.
Qed.




(** X23.  [SetCellAt] writes one cell and [CellAt] reads it back.  On a
    table of the right shape, [SetCellAt] at a position inside the table
    changes what [CellAt] returns at that position to the new cell and at no
    other position; at a position outside the table it changes nothing.
    Width and height stay. *)
Theorem SetCellAt_then_CellAt (t : Rws.Table.t T) (c : T) (x y : Z) :
  table_shape t ->
  exists t',
    Rws.Table.SetCellAt (Some t) c x y = Returns (Some t')
    /\ Rws.Table.Width (Some t') = Rws.Table.Width (Some t)
    /\ Rws.Table.Height (Some t') = Rws.Table.Height (Some t)
    /\ forall x' y',
        Rws.Table.CellAt (Some t') x' y'
        = if bool_decide (x' = x /\ y' = y
                          /\ 0 <= x < Rws.Table.width t
                          /\ 0 <= y < Rws.Table.height t)
          then Returns c else Rws.Table.CellAt (Some t) x' y'.
Proof.
  intros Hs.
  destruct (SetCellAt_shape t c x y Hs) as (t' & Hset & Hs' & Hw & Hh & Hc).
  exists t'. split; [done|]. split; [done|]. split; [done|].
  intros x' y'. rewrite !CellAt_shape, Hc by done. by case_bool_decide.
Qed.


(** X25.  [Free] empties the table: on a table of the right shape it
    returns, width and height are zero afterwards, [CellAt] returns the zero
    value everywhere and [SetCellAt] changes nothing. *)
Theorem Free_empties_the_table (t : Rws.Table.t T) :
  table_shape t ->
  exists t',
    Rws.Table.Free (Some t) = Returns (Some t')
    /\ Rws.Table.Width (Some t') = 0 /\ Rws.Table.Height (Some t') = 0
    /\ (forall x y, Rws.Table.CellAt (Some t') x y = Returns zero)
    /\ forall c x y, Rws.Table.SetCellAt (Some t') c x y = Returns (Some t').
Proof.
  intros Hs. destruct (Free_shape t Hs) as (t' & Hf & Hs' & Hw & Hh & Ht).
  exists t'. split; [done|]. split; [done|]. split; [done|]. split.
  - intros x y. rewrite CellAt_shape by done.
    unfold lookup_cell. rewrite Ht. by case_bool_decide.
  - intros c x y. unfold Rws.Table.SetCellAt. rewrite Hw, Hh.
    by repeat case_bool_decide; cbn [orb]; try lia.
Qed.
End rws_table.

(** ** Package rws: the map *)

Section rws_map.
Context {K U : Type} `{Countable K} `{!Zero U}.

Lemma MapOp_run_entries (s : Rws.Map.t K U) (op : MapOp.t K U) :
  exists s',
    MapOp.run (Some s) op = Some s'
    /\ default ∅ (Rws.Map.m s') = MapOp.model (default ∅ (Rws.Map.m s)) op.
Proof.
  destruct op as [key val|key|]; cbn.
  - by eexists.
  - eexists. split; [done|]. cbn. destruct (Rws.Map.m s); cbn; [done|].
    by rewrite delete_empty.
  - unfold Rws.Map.Reset. case_bool_decide as He; eexists; split; try done.
    destruct (Rws.Map.m s) as [g|]; cbn in *; [|done].
    by apply map_size_empty_iff in He.
Qed.

Lemma run_all_entries (ops : list (MapOp.t K U)) : forall s : Rws.Map.t K U,
  exists s',
    foldl MapOp.run (Some s) ops = Some s'
    /\ default ∅ (Rws.Map.m s')
       = foldl MapOp.model (default ∅ (Rws.Map.m s)) ops.
Proof.
  induction ops as [|op ops IH]; intros s; [by exists s|].
  cbn [foldl]. destruct (MapOp_run_entries s op) as (s' & -> & <-).
  apply IH.
Qed.

(** X26.  A [Map] is a finite map.  After any calls of [Set], [Delete] and
    [Reset] on a new [Map], [Get] returns for every key the value last set
    for it and true, or the zero value and false when the key was never
    set, or was deleted or reset since; [Len] is the number of keys that
    have a value; and [GetMap] and [Copy] hold exactly these entries. *)
Theorem Map_is_a_finite_map (ops : list (MapOp.t K U)) :
  let entries := foldl MapOp.model ∅ ops in
  let sm := foldl MapOp.run (Some Rws.Map.new) ops in
  (forall key,
     Rws.Map.Get sm key
     = match entries !! key with
       | Some val => (val, true)
       | None => (zero, false)
       end)
  /\ Rws.Map.Len sm = Z.of_nat (size entries)
  /\ Rws.Map.GetMap sm = Some entries
  /\ Rws.Map.m (Rws.Map.Copy sm) = Some entries.
Proof.
  intros entries sm.
  destruct (run_all_entries ops Rws.Map.new) as (s & Hsm & Hs).
  fold sm in Hsm. cbn in Hs. fold entries in Hs. rewrite Hsm.
  clearbody entries sm. subst entries.
  split; [|split; [|done]].
  - intros key. unfold Rws.Map.Get.
    destruct (Rws.Map.m s) as [g|]; cbn [Rws.Map.len default from_option id].
    + case_bool_decide as He.
      * apply map_size_empty_iff in He. subst g.
        by rewrite lookup_empty.
      * cbn. by destruct (g !! key).
    + cbn. by rewrite lookup_empty.
  - unfold Rws.Map.Len. destruct (Rws.Map.m s); cbn; [done|].
    by rewrite map_size_empty.
Qed.
End rws_map.

(** ** Package buffer: the Buffer behind a context *)

Section buffer_context.
Context {T : Type} `{!Zero T} (sch : Scheduler).
Implicit Types (p ctx : BufferContext.context) (w : BufferContext.world T)
  (st : Relay.t T).

Lemma Start_new_err :
  (Buffer.Start sch (Some (Buffer.new (T := T)))).1.2 = None.
Proof. done. Qed.



(** X27.  The context of [NewContext] carries a Buffer and shares it with
    its children.  For a parent that is not nil, [NewContext] returns a
    context in which [fromContext] finds a [Context] whose Buffer is the one
    the returned function closes: the Buffer of the parent when the parent
    carries one, and no Buffer is made then; a new Buffer, started, when it
    does not.  A second [NewContext], on the returned context, makes no
    Buffer: its function closes the Buffer of the first.  The returned
    context is done exactly when the parent is, in every world. *)
Theorem NewContext_shares_the_Buffer p w :
  exists w' ctx cf c,
    BufferContext.NewContext sch (Some p) w = Returns (w', (ctx, cf))
    /\ BufferContext.fromContext (Some ctx) = (Some c, None)
    /\ BufferContext.buffer c = BufferContext.closes cf
    /\ match BufferContext.fromContext (Some p) with
       | (Some pc, None) =>
           BufferContext.buffer c = BufferContext.buffer pc
           /\ BufferContext.heap w' = BufferContext.heap w
       | _ =>
           BufferContext.buffer c = Some (length (BufferContext.heap w))
           /\ BufferContext.heap w'
              = BufferContext.heap w ++ [Relay.init sch]
       end
    /\ (forall w'' : BufferContext.world T,
          BufferContext.done ctx w'' = BufferContext.done p w'')
    /\ exists w2 ctx2 cf2,
         BufferContext.NewContext sch (Some ctx) w' = Returns (w2, (ctx2, cf2))
         /\ BufferContext.closes cf2 = BufferContext.closes cf
         /\ BufferContext.heap w2 = BufferContext.heap w'.
Proof.
  unfold BufferContext.NewContext at 1.
  destruct (BufferContext.fromContext (Some p)) as [[pc|] [e|]] eqn:Hp;
    rewrite ?Start_new_err;
    (eexists _, _, _, _; split; [reflexivity|]);
    (split; [reflexivity|]); (split; [reflexivity|]);
    (split; [by split|]); (split; [done|]);
    by eexists _, _, _.
Qed.







End buffer_context.

(** ** The packages common, rws and buffer at work *)

Lemma Run_guards_witness :
  Common.Run (C := BufferContext.context) None [None; None] empty_world
  = Returns (empty_world, None)
  /\ Common.Run (C := BufferContext.context) None
       [None; BufferAction.Send in_order 1] empty_world
     = Returns (empty_world, Some (ErrNilParam "ctx"))
  /\ Common.Run
       (Some (BufferContext.WithCancel BufferContext.Background 0))
       [BufferAction.Send in_order 1] cancelled_world
     = Returns (cancelled_world, Some Canceled).
Proof.
  split; [|split].
  - apply (proj1 (Run_guards (C := BufferContext.context)
                    [None; None] empty_world)).
    intros a Ha. apply elem_of_cons in Ha as [->|Ha]; [reflexivity|].
    apply elem_of_cons in Ha as [->|Ha]; [reflexivity|].
    by apply elem_of_nil in Ha.
  - apply (proj2 (Run_guards (C := BufferContext.context)
                    [None; BufferAction.Send in_order 1] empty_world)).
    unfold BufferAction.Send. eexists. right. left.
  - assert (exists act : Common.Action BufferContext.context
                           (BufferContext.world Z),
              Some act ∈ [BufferAction.Send in_order 1]) as Hact
      by (unfold BufferAction.Send; eexists; left).
    exact (proj2 (proj2 (Run_guards [BufferAction.Send in_order 1]
                           cancelled_world) Hact)
             (BufferContext.WithCancel BufferContext.Background 0) eq_refl).
Defined.


Lemma small_table_shape : table_shape small_table.
Proof. split; cbn; [done|done|reflexivity|repeat constructor]. Defined.

Lemma SetCellAt_then_CellAt_witness :
  table_shape small_table
  /\ exists t',
      Rws.Table.SetCellAt (Some small_table) 9 1 0 = Returns (Some t')
      /\ Rws.Table.CellAt (Some t') 1 0 = Returns 9
      /\ Rws.Table.CellAt (Some t') 0 0 = Returns 1.
Proof.
  split; [exact small_table_shape|].
  destruct (SetCellAt_then_CellAt small_table 9 1 0 small_table_shape)
    as (t' & Hset & _ & _ & Hcell).
  exists t'. split; [exact Hset|]. split.
  - exact (Hcell 1 0).
  - exact (Hcell 0 0).
Defined.


Lemma Free_empties_the_table_witness :
  table_shape small_table
  /\ exists t',
      Rws.Table.Free (Some small_table) = Returns (Some t')
      /\ Rws.Table.Width (Some t') = 0
      /\ Rws.Table.CellAt (Some t') 1 1 = Returns 0.
Proof.
  split; [exact small_table_shape|].
  destruct (Free_empties_the_table small_table small_table_shape)
    as (t' & Hf & Hw & _ & Hcell & _).
  exists t'. split; [exact Hf|]. split; [exact Hw|exact (Hcell 1 1)].
Defined.


